(** * ESP32-SmartCube: the notification decoder

    A shallow embedding of the decoding part of [esp32-smartcube.ino]:
    the helper [getNibble], the constant tables [decryptionKey] and
    [solution], and the callback [notifyCallback], which decrypts the
    characteristic data in place, prints the cube state and the last move
    on the serial line, and pulses a relay pin when the cube is solved.

    Bytes ([uint8_t]) are integers in [0, 256) with the wrap-around written
    out; [int] values are integers.  The buffer handed to the callback is a
    list of bytes that is read and written by index; an access outside an
    array has no defined behaviour in the source and is a [fault] here,
    after which the callback does nothing more. *)

From stdpp Require Import base numbers list strings.
From Stdlib Require Strings.Byte.

Local Open Scope Z_scope.

(** ** Machine integers *)

(** Conversion of an [int] to [uint8_t]. *)
Definition wrap8 (z : Z) : Z := z mod 256.

Definition is_byte (b : Z) : Prop := 0 ≤ b < 256.

(** ** Constants of the sketch *)

Definition decryptionKey : list Z :=
  [176; 81; 104; 224; 86; 137; 237; 119; 38; 26; 193; 161; 210; 126; 150;
   81; 93; 13; 236; 249; 89; 235; 88; 24; 113; 81; 214; 131; 130; 199; 2;
   169; 39; 165; 171; 41].

Definition relayPin : Z := 33.

Definition solution : list Z :=
  [0x12; 0x34; 0x56; 0x78; 0x33; 0x33; 0x33; 0x33;
   0x12; 0x34; 0x56; 0x78; 0x9a; 0xbc; 0x00; 0x00].

Definition faceNames : list string :=
  ["Front"; "Bottom"; "Right"; "Top"; "Left"; "Back"]%string.

Definition HIGH : bool := true.
Definition LOW : bool := false.

(** ** Arrays *)

(** [val[i]] for an [int] index: defined only inside the array. *)
Definition index {A} (val : list A) (i : Z) : option A :=
  if bool_decide (0 ≤ i) then val !! Z.to_nat i else None.

(** [val[i] = x] for an [int] index. *)
Definition update {A} (val : list A) (i : Z) (x : A) : option (list A) :=
  if bool_decide (0 ≤ i < Z.of_nat (length val))
  then Some (<[Z.to_nat i := x]> val) else None.

(** ** Helper functions *)

(** [getBit(val, i)]: the [i]th bit, most significant first in each byte. *)
Definition getBit (val : list Z) (i : Z) : option Z :=
  let n := Z.lor (Z.quot i 8) 0 in
  let shift := 7 - Z.rem i 8 in
  b ← index val n;
  Some (Z.land (Z.shiftr b shift) 1).

(** [getNibble(val, i)]: the [i]th half-byte.  [/] and [%] on [int] truncate
    towards zero; the result is converted to [uint8_t]. *)
Definition getNibble (val : list Z) (i : Z) : option Z :=
  if bool_decide (Z.rem i 2 = 1) then
    b ← index val (Z.lor (Z.quot i 2) 0);
    Some (wrap8 (Z.rem b 16))
  else
    b ← index val (Z.lor (Z.quot i 2) 0);
    Some (wrap8 (Z.lor 0 (Z.quot b 16))).

(** [memcmp(a, b, n)]: zero when the first [n] bytes agree, otherwise the
    difference of the first pair that differs. *)
Fixpoint memcmp (a b : list Z) (n : nat) {struct n} : option Z :=
  match n with
  | O => Some 0
  | S n' =>
      match a, b with
      | x :: a', y :: b' => if bool_decide (x = y) then memcmp a' b' n' else Some (x - y)
      | _, _ => None
      end
  end.

(** ** The machine the callback runs on *)

Inductive fault : Type :=
  | OutOfBounds (array : string) (i : Z).

Inductive event : Type :=
  | SerialPrint (s : string)
  | SerialPrintHex (b : Z)
  | SerialPrintln (s : string)
  | DigitalWrite (pin : Z) (level : bool)
  | Delay (ms : Z).

(** [pData] is the buffer behind the callback's pointer, [keyReads] records
    every index at which [decryptionKey] was read, [trace] the serial and
    pin output in the order it was produced. *)
Record machine : Type := Machine {
  pData : list Z;
  keyReads : list Z;
  trace : list event
}.

Definition M (A : Type) : Type := machine → (fault + A) * machine.

Definition ret {A} (a : A) : M A := λ m, (inr a, m).

Definition bind {A B} (c : M A) (k : A → M B) : M B :=
  λ m, match c m with
       | (inl f, m') => (inl f, m')
       | (inr a, m') => k a m'
       end.

Notation "'let*' x ':=' c 'in' k" := (bind c (λ x, k))
  (at level 10, x name, c at level 100, k at level 200).
Notation "c1 ';;;' c2" := (bind c1 (λ _, c2))
  (at level 100, c2 at level 200, right associativity).

Definition raise {A} (f : fault) : M A := λ m, (inl f, m).

Definition lift {A} (array : string) (i : Z) (o : option A) : M A :=
  match o with Some a => ret a | None => raise (OutOfBounds array i) end.

Definition load_pData (i : Z) : M Z :=
  λ m, lift "pData" i (index (pData m) i) m.

Definition store_pData (i : Z) (b : Z) : M unit :=
  λ m, match update (pData m) i b with
       | Some l => (inr (), Machine l (keyReads m) (trace m))
       | None => (inl (OutOfBounds "pData" i), m)
       end.

Definition load_key (i : Z) : M Z :=
  λ m, lift "decryptionKey" i (index decryptionKey i)
         (Machine (pData m) (keyReads m ++ [i]) (trace m)).

Definition emit (e : event) : M unit :=
  λ m, (inr (), Machine (pData m) (keyReads m) (trace m ++ [e])).

Definition getNibbleM (i : Z) : M Z :=
  λ m, lift "pData" (Z.lor (Z.quot i 2) 0) (getNibble (pData m) i) m.

Definition memcmpM (b : list Z) (n : nat) : M Z :=
  λ m, lift "pData" (Z.of_nat (length (pData m))) (memcmp (pData m) b n) m.

(** [for (int i = lo; ...; i++) body], with [n] iterations to go. *)
Fixpoint for_range (n : nat) (i : Z) (body : Z → M unit) : M unit :=
  match n with
  | O => ret ()
  | S n' => body i ;;; for_range n' (i + 1) body
  end.

Definition for_upto (lo hi : Z) (body : Z → M unit) : M unit :=
  for_range (Z.to_nat (hi - lo)) lo body.

(** ** The callback *)

(** [pData[i] += (decryptionKey[offset1 + i] + decryptionKey[offset2 + i])]:
    the sum is computed on [int] and stored back as [uint8_t]. *)
Definition decryptByte (offset1 offset2 i : Z) : M unit :=
  let* p := load_pData i in
  let* k1 := load_key (offset1 + i) in
  let* k2 := load_key (offset2 + i) in
  store_pData i (wrap8 (p + (k1 + k2))).

(** The [if (isEncrypted) { ... }] block. *)
Definition decryptData : M unit :=
  let* offset1 := getNibbleM 38 in
  let* offset2 := getNibbleM 39 in
  for_upto 0 20 (decryptByte offset1 offset2).

Definition printByte (i : Z) : M unit :=
  let* b := load_pData i in
  emit (SerialPrintHex b) ;;;
  emit (SerialPrint " ").

Definition printState : M unit :=
  emit (SerialPrint "Current State: ") ;;;
  for_upto 0 16 printByte ;;;
  emit (SerialPrintln "").

Definition printMove : M unit :=
  let* lastMoveFace := getNibbleM 32 in
  let* lastMoveDirection := getNibbleM 33 in
  emit (SerialPrint "Last Move: ") ;;;
  let* name := (λ m, lift "faceNames" (lastMoveFace - 1)
                       (index faceNames (lastMoveFace - 1)) m) in
  emit (SerialPrint name) ;;;
  emit (SerialPrint (if bool_decide (lastMoveDirection = 1)
                     then " Face Clockwise" else " Face Anti-Clockwise")) ;;;
  emit (SerialPrintln "") ;;;
  emit (SerialPrintln "----").

Definition checkSolved : M unit :=
  let* c := memcmpM solution 16 in
  if bool_decide (c = 0) then
    emit (DigitalWrite relayPin HIGH) ;;;
    emit (Delay 100) ;;;
    emit (DigitalWrite relayPin LOW)
  else ret ().

(** [notifyCallback(pBLERemoteCharacteristic, pData, length, isNotify)]:
    the buffer is the machine's [pData]; [length] and [isNotify] are
    received and never looked at. *)
Definition notifyCallback (length : Z) (isNotify : bool) : M unit :=
  let* b18 := load_pData 18 in
  let isEncrypted := bool_decide (b18 = 0xA7) in
  (if isEncrypted then decryptData else ret ()) ;;;
  printState ;;;
  printMove ;;;
  checkSolved.

(** The callback as the BLE stack invokes it: on a fresh buffer holding the
    notification's bytes, with [length] the number of bytes. *)
Definition notify (data : list Z) : (fault + unit) * machine :=
  notifyCallback (Z.of_nat (length data)) true (Machine data [] []).

(** ** What the callback computes, as functions of the received bytes *)

Definition bytes (l : list Z) : Prop := Forall is_byte l.

Ltac solve_bytes := unfold bytes, is_byte; repeat constructor; lia.

(** A byte of the key table, for an index inside it. *)
Definition key_at (i : Z) : Z := default 0 (index decryptionKey i).

(** The loop body's effect on the bytes from index [i] on. *)
Fixpoint add_key (offset1 offset2 i : Z) (l : list Z) : list Z :=
  match l with
  | [] => []
  | b :: l' =>
      wrap8 (b + (key_at (offset1 + i) + key_at (offset2 + i)))
      :: add_key offset1 offset2 (i + 1) l'
  end.

(** The key indices the loop reads in [n] iterations from index [i] on. *)
Fixpoint key_indices (offset1 offset2 i : Z) (n : nat) : list Z :=
  match n with
  | O => []
  | S n' => (offset1 + i) :: (offset2 + i) :: key_indices offset1 offset2 (i + 1) n'
  end.

Definition byte_at (data : list Z) (i : nat) : Z := default 0 (data !! i).

Definition isEncrypted (data : list Z) : bool :=
  bool_decide (byte_at data 18 = 0xA7).

Definition offset1_of (data : list Z) : Z := byte_at data 19 / 16.
Definition offset2_of (data : list Z) : Z := byte_at data 19 mod 16.

Definition decrypt (data : list Z) : list Z :=
  if isEncrypted data
  then add_key (offset1_of data) (offset2_of data) 0 (take 20 data) ++ drop 20 data
  else data.

Definition reads_of (data : list Z) : list Z :=
  if isEncrypted data
  then key_indices (offset1_of data) (offset2_of data) 0 20
  else [].

Definition face_nibble (d : list Z) : Z := byte_at d 16 / 16.
Definition direction_nibble (d : list Z) : Z := byte_at d 16 mod 16.

Definition state_line (d : list Z) : list event :=
  SerialPrint "Current State: "
  :: flat_map (λ b, [SerialPrintHex b; SerialPrint " "]) (take 16 d)
  ++ [SerialPrintln ""].

Definition move_line (name : string) (direction : Z) : list event :=
  [SerialPrint "Last Move: "; SerialPrint name;
   SerialPrint (if bool_decide (direction = 1)
                then " Face Clockwise" else " Face Anti-Clockwise");
   SerialPrintln ""; SerialPrintln "----"].

Definition relay_pulse : list event :=
  [DigitalWrite relayPin HIGH; Delay 100; DigitalWrite relayPin LOW].

Definition solved (d : list Z) : bool := bool_decide (take 16 d = solution).

Definition relay_line (d : list Z) : list event :=
  if solved d then relay_pulse else [].

(** The result of one notification, in closed form. *)
Definition outcome (data : list Z) : (fault + unit) * machine :=
  let d := decrypt data in
  match index faceNames (face_nibble d - 1) with
  | Some name =>
      (inr (),
       Machine d (reads_of data)
         (state_line d ++ move_line name (direction_nibble d) ++ relay_line d))
  | None =>
      (inl (OutOfBounds "faceNames" (face_nibble d - 1)),
       Machine d (reads_of data) (state_line d ++ [SerialPrint "Last Move: "]))
  end.

(** What a result looks like on a machine that had already logged [kr] and
    [tr]. *)
Definition after (kr : list Z) (tr : list event)
    (r : (fault + unit) * machine) : (fault + unit) * machine :=
  (r.1, Machine (pData r.2) (kr ++ keyReads r.2) (tr ++ trace r.2)).

(** ** Reading a run *)

(** The bytes the callback printed in hexadecimal: the cube state it
    reported. *)
Definition printed_bytes (t : list event) : list Z :=
  omap (λ e, match e with SerialPrintHex b => Some b | _ => None end) t.

Global Instance event_eq_dec : EqDecision event.
Proof. solve_decision. Defined.

(** Whether the run drove the relay pin high: the sketch's solved signal. *)
Definition relay_pulsed (m : machine) : bool :=
  bool_decide (DigitalWrite relayPin HIGH ∈ trace m).

(** The pin writes of a run, in order. *)
Definition pin_writes (t : list event) : list (Z * bool) :=
  omap (λ e, match e with DigitalWrite pin level => Some (pin, level) | _ => None end) t.

(** ** The move, as the enumerations of the specification *)

Inductive Face : Type := Front | Bottom | Right | Top | Left | Back.

Inductive Direction : Type := Clockwise | CounterClockwise.

Definition face_of_nibble (n : Z) : option Face :=
  match n with
  | 1 => Some Front
  | 2 => Some Bottom
  | 3 => Some Right
  | 4 => Some Top
  | 5 => Some Left
  | 6 => Some Back
  | _ => None
  end.

Definition direction_of_nibble (n : Z) : Direction :=
  if bool_decide (n = 1) then Clockwise else CounterClockwise.

Definition face_name (f : Face) : string :=
  match f with
  | Front => "Front"
  | Bottom => "Bottom"
  | Right => "Right"
  | Top => "Top"
  | Left => "Left"
  | Back => "Back"
  end.

Definition direction_text (d : Direction) : string :=
  match d with
  | Clockwise => " Face Clockwise"
  | CounterClockwise => " Face Anti-Clockwise"
  end.

(** What the callback prints for a move. *)
Definition move_report (f : Face) (d : Direction) : list event :=
  [SerialPrint "Last Move: "; SerialPrint (face_name f);
   SerialPrint (direction_text d); SerialPrintln ""; SerialPrintln "----"].

(** ** The sensor's side *)

(** Modelled from the spec: the forward transform of the cube's firmware,
    which the sketch does not contain.  Each byte has the additive inverse,
    modulo 256, of the two key bytes' sum added to it. *)
Fixpoint sub_key (offset1 offset2 i : Z) (l : list Z) : list Z :=
  match l with
  | [] => []
  | b :: l' =>
      wrap8 (b + (256 - wrap8 (key_at (offset1 + i) + key_at (offset2 + i))))
      :: sub_key offset1 offset2 (i + 1) l'
  end.

(** Modelled from the spec: an obfuscated payload built from the 18 leading
    bytes [plain] (piece state, then the two move bytes) and the two offsets:
    the transformed bytes, the marker 0xA7 at offset 18, and the offsets as
    the two nibbles of byte 19. *)
Definition obfuscate (offset1 offset2 : Z) (plain : list Z) : list Z :=
  sub_key offset1 offset2 0 plain ++ [0xA7; 16 * offset1 + offset2].

(** The payload with bit [k] of byte [i] inverted. *)
Definition flip_bit (data : list Z) (i : nat) (k : Z) : list Z :=
  <[i := Z.lxor (byte_at data i) (Z.shiftl 1 k)]> data.

(** ** The rest of the sketch: scanning, connecting, the main loop *)

(** A Bluetooth address is its six bytes: they are what [equals]
    compares. *)
Definition BLEAddress : Type := list Z.

Definition pServerAddress : BLEAddress := [0xd9; 0x47; 0x6f; 0x3b; 0xf4; 0xe1].

Definition serviceUUID : string := "0000aadb-0000-1000-8000-00805f9b34fb".

Definition charUUID : string := "0000aadc-0000-1000-8000-00805f9b34fb".

(** The globals.  [myDevice] is the copy of the advertised device, kept by
    its address, and [None] while the pointer is null;
    [pRemoteCharacteristic] likewise. *)
Record globals : Type := Globals {
  deviceFound : bool;
  connected : bool;
  myDevice : option BLEAddress;
  pRemoteCharacteristic : option string
}.

(** All statics start out zero. *)
Definition initial : globals := Globals false false None None.

(** What the sketch asks of the serial line, the pins and the Bluetooth
    stack, in the order it asks. *)
Inductive io : Type :=
  | SerialText (s : string)
  | SerialLine (s : string)
  | SerialHex (b : Z)
  | SerialAddress (a : BLEAddress)
  | SerialBegin (baud : Z)
  | PinModeOutput (pin : Z)
  | PinWrite (pin : Z) (level : bool)
  | Wait (ms : Z)
  | BLEInit (name : string)
  | GetScan
  | SetAdvertisedDeviceCallbacks
  | SetActiveScan (active : bool)
  | ScanStart (seconds : Z)
  | ScanStop
  | CreateClient
  | SetClientCallbacks
  | Connect (a : BLEAddress)
  | GetService (uuid : string)
  | GetCharacteristic (uuid : string)
  | CanNotify
  | RegisterForNotify.

Global Instance io_eq_dec : EqDecision io.
Proof. solve_decision. Defined.

(** What the Bluetooth stack answers during [connectToServer]: whether
    [getService] and [getCharacteristic] return an object rather than null,
    and what [canNotify] says. *)
Record ble : Type := Ble {
  has_service : bool;
  has_characteristic : bool;
  can_notify : bool
}.

(** How a [bool] function ends: with a [return], or by running off its
    end. *)
Inductive returned : Type :=
  | Return (b : bool)
  | FellOffEnd.

(** How far a run of the sketch gets: to its end, or to the first step
    that has no defined behaviour in the source, which is a null [myDevice]
    dereferenced, a [bool] function left without a [return], or an array
    indexed out of range.  Nothing is said of what follows such a step. *)
Inductive ending : Type :=
  | Finished
  | NullPointer
  | NoReturnValue
  | OutOfRange (f : fault).

(** The output of [notifyCallback] among the requests of the sketch. *)
Definition io_of_event (e : event) : io :=
  match e with
  | SerialPrint s => SerialText s
  | SerialPrintHex b => SerialHex b
  | SerialPrintln s => SerialLine s
  | DigitalWrite pin level => PinWrite pin level
  | Delay ms => Wait ms
  end.

(** A byte of a notification, as the integer it stands for. *)
Definition uint8 (b : Byte.byte) : Z := Z.of_N (Byte.to_N b).

Section sketch.

(** The board's LED pin, which the sketch takes from the core's headers. *)
Variable LED_BUILTIN : Z.

(** [AdvertisedDeviceCallbacks::onResult]. *)
Definition onResult (advertisedDevice : BLEAddress) (g : globals)
    : globals * list io :=
  let out := [SerialText " - "; SerialAddress advertisedDevice] in
  if bool_decide (advertisedDevice = pServerAddress) then
    (Globals true (connected g) (Some advertisedDevice) (pRemoteCharacteristic g),
     out ++ [ScanStop; SerialLine " - Connecting!"])
  else
    (g, out ++ [SerialLine "... MAC address does not match"]).

(** [ClientCallbacks::onConnect] and [onDisconnect]. *)
Definition onConnect (g : globals) : globals * list io :=
  (Globals (deviceFound g) true (myDevice g) (pRemoteCharacteristic g),
   [PinWrite LED_BUILTIN HIGH]).

Definition onDisconnect (g : globals) : globals * list io :=
  (Globals (deviceFound g) false (myDevice g) (pRemoteCharacteristic g),
   [PinWrite LED_BUILTIN LOW]).

(** [connectToServer]; [None] when [myDevice] is null where it is
    dereferenced. *)
Definition connectToServer (env : ble) (g : globals)
    : option (returned * globals * list io) :=
  device ← myDevice g;
  let out1 :=
    [SerialText "Creating BLE client... "; CreateClient; Wait 500; SerialLine "Done.";
     SerialText "Assigning callbacks... "; SetClientCallbacks; Wait 500;
     SerialLine " - Done.";
     SerialText "Connecting to "; SerialAddress device; SerialText "... ";
     Connect device; Wait 500; SerialLine " - Done.";
     SerialText "Finding service "; SerialText serviceUUID; SerialText "... ";
     GetService serviceUUID; Wait 500] in
  if negb (has_service env) then
    Some (Return false, g, out1 ++ [SerialLine "FAILED."])
  else
    let out2 :=
      out1 ++
      [SerialLine " - Done."; Wait 500;
       SerialText "Finding characteristic "; SerialText charUUID; SerialText "... ";
       GetCharacteristic charUUID] in
    if negb (has_characteristic env) then
      Some (Return false,
            Globals (deviceFound g) (connected g) (myDevice g) None,
            out2 ++ [SerialLine "FAILED."])
    else
      let g' := Globals (deviceFound g) (connected g) (myDevice g) (Some charUUID) in
      let out3 :=
        out2 ++
        [SerialLine " - Done."; Wait 500;
         SerialText "Registering for notifications... "; CanNotify] in
      if can_notify env then
        Some (FellOffEnd, g',
              out3 ++ [RegisterForNotify; SerialLine " - Done."; SerialLine "READY!"])
      else
        Some (Return false, g', out3 ++ [SerialLine "FAILED."]).

(** [scanForDevices]. *)
Definition scanForDevices (g : globals) : globals * list io :=
  (g, [SerialLine "Scanning for Bluetooth devices..."; GetScan;
       SetAdvertisedDeviceCallbacks; SetActiveScan true; ScanStart 30]).

(** [setup]. *)
Definition setup (g : globals) : globals * list io :=
  (g, [SerialBegin 115200; SerialText "Initialising BLE..."; BLEInit ""; Wait 500;
       SerialLine "Done."; PinModeOutput relayPin; PinWrite relayPin LOW;
       PinModeOutput LED_BUILTIN]).

(** [loop].  The value of [connectToServer] is dropped, but the call has to
    return one: where [connectToServer] reaches its end without a [return]
    the run stops, with what had been asked until then.  Where
    [connectToServer] meets a null [myDevice] the run stops as well; what it
    had asked before that is not recorded. *)
Definition loop (env : ble) (g : globals) : ending * globals * list io :=
  if deviceFound g then
    if negb (connected g) then
      match connectToServer env g with
      | None => (NullPointer, g, [])
      | Some (FellOffEnd, g', out) => (NoReturnValue, g', out)
      | Some (Return _, g', out) => (Finished, g', out ++ [Wait 1000])
      end
    else (Finished, g, [Wait 1000])
  else
    let '(g', out) := scanForDevices g in
    (Finished, g', out ++ [Wait 1000]).

(** The ways the sketch is entered: the core calls [setup] or [loop], the
    stack calls one of the callbacks, [notifyCallback] with the bytes of a
    notification among them. *)
Inductive call : Type :=
  | Setup
  | OnResult (advertisedDevice : BLEAddress)
  | OnConnect
  | OnDisconnect
  | OnNotify (payload : list Byte.byte)
  | Loop (env : ble).

Definition step (c : call) (g : globals) : ending * globals * list io :=
  match c with
  | Setup => let '(g', out) := setup g in (Finished, g', out)
  | OnResult a => let '(g', out) := onResult a g in (Finished, g', out)
  | OnConnect => let '(g', out) := onConnect g in (Finished, g', out)
  | OnDisconnect => let '(g', out) := onDisconnect g in (Finished, g', out)
  | OnNotify payload =>
      let r := notify (map uint8 payload) in
      (match r.1 with inl f => OutOfRange f | inr _ => Finished end,
       g, map io_of_event (trace r.2))
  | Loop env => loop env g
  end.

(** A sequence of entries, one after the other, as far as it gets: the
    globals and the requests are those at the end, or at the step where the
    run stops. *)
Fixpoint exec (cs : list call) (g : globals) : ending * globals * list io :=
  match cs with
  | [] => (Finished, g, [])
  | c :: cs' =>
      match step c g with
      | (Finished, g1, out1) =>
          let '(e, g2, out2) := exec cs' g1 in (e, g2, out1 ++ out2)
      | stopped => stopped
      end
  end.

(** A sequence of entries that runs through. *)
Definition run (cs : list call) (g : globals) : option (globals * list io) :=
  match exec cs g with
  | (Finished, g', out) => Some (g', out)
  | _ => None
  end.

(** The level of the LED after the pin writes of [out], from level [l]. *)
Definition led_after (l : bool) (out : list io) : bool :=
  foldl (λ l e, match e with
                | PinWrite pin level => if bool_decide (pin = LED_BUILTIN) then level else l
                | _ => l
                end) l out.

End sketch.

(** [myDevice] is set exactly when [deviceFound] is, and then to the
    configured address. *)
Definition device_known (g : globals) : Prop :=
  myDevice g = if deviceFound g then Some pServerAddress else None.

Ltac not_among H :=
  cbn [app] in H;
  repeat (apply elem_of_cons in H as [H|H]; [by simplify_eq|]);
  by apply elem_of_nil in H.

(** ** The payloads quoted in the sketch's comments *)

(** [1234567833333333123456789abc000041414141]: a solved cube, sent in the
    clear. *)
Definition plain_example : list Z :=
  [0x12; 0x34; 0x56; 0x78; 0x33; 0x33; 0x33; 0x33; 0x12; 0x34;
   0x56; 0x78; 0x9a; 0xbc; 0x00; 0x00; 0x41; 0x41; 0x41; 0x41].

(** [706f6936b1edd1b5e00264d099a4e8a19d3ea7f1]: the same state, encrypted. *)
Definition encrypted_example_1 : list Z :=
  [0x70; 0x6f; 0x69; 0x36; 0xb1; 0xed; 0xd1; 0xb5; 0xe0; 0x02;
   0x64; 0xd0; 0x99; 0xa4; 0xe8; 0xa1; 0x9d; 0x3e; 0xa7; 0xf1].

(** [d9f67772c3e9a5ea6e84447abb527156f9dca705]: and again, with other
    offsets. *)
Definition encrypted_example_2 : list Z :=
  [0xd9; 0xf6; 0x77; 0x72; 0xc3; 0xe9; 0xa5; 0xea; 0x6e; 0x84;
   0x44; 0x7a; 0xbb; 0x52; 0x71; 0x56; 0xf9; 0xdc; 0xa7; 0x05].

(** ** Lemmas on arrays and helpers *)

Lemma index_Some {A} (val : list A) (i : nat) (x : A) :
  val !! i = Some x → index val (Z.of_nat i) = Some x.
Proof.
  intros H. unfold index. rewrite bool_decide_eq_true_2 by lia.
  by rewrite Nat2Z.id.
Qed.

Lemma index_middle {A} (pre post : list A) (x : A) :
  index (pre ++ x :: post) (Z.of_nat (length pre)) = Some x.
Proof. apply index_Some. by apply list_lookup_middle. Qed.

Lemma update_middle {A} (pre post : list A) (x y : A) :
  update (pre ++ x :: post) (Z.of_nat (length pre)) y = Some (pre ++ y :: post).
Proof.
  unfold update. rewrite bool_decide_eq_true_2.
  - rewrite Nat2Z.id. f_equal.
    rewrite insert_app_r_alt by lia. by rewrite Nat.sub_diag.
  - rewrite length_app. simpl. lia.
Qed.

Lemma index_key (i : Z) :
  0 ≤ i < 36 → index decryptionKey i = Some (key_at i).
Proof.
  intros Hi. unfold key_at.
  destruct (index decryptionKey i) as [k|] eqn:E; [done|].
  unfold index in E. rewrite bool_decide_eq_true_2 in E by lia.
  apply lookup_ge_None in E. simpl in E. lia.
Qed.

Lemma key_at_byte (i : Z) : is_byte (key_at i).
Proof.
  unfold key_at, index. case_bool_decide as Hi; [|by compute].
  destruct (decryptionKey !! Z.to_nat i) as [k|] eqn:E; [|by compute].
  simpl. apply list_elem_of_lookup_2 in E.
  revert k E. apply Forall_forall.
  unfold decryptionKey, is_byte. repeat constructor; lia.
Qed.

Lemma wrap8_byte (z : Z) : is_byte (wrap8 z).
Proof. unfold is_byte, wrap8. apply Z.mod_pos_bound. lia. Qed.

Lemma wrap8_small (z : Z) : is_byte z → wrap8 z = z.
Proof. unfold is_byte, wrap8. intros. by apply Z.mod_small. Qed.

Lemma getNibble_even (val : list Z) (j : nat) (b : Z) :
  val !! j = Some b → is_byte b →
  getNibble val (2 * Z.of_nat j) = Some (b / 16).
Proof.
  intros Hj Hb. unfold getNibble.
  rewrite bool_decide_eq_false_2.
  - rewrite Z.mul_comm, Z.quot_mul by lia. rewrite Z.lor_0_r.
    rewrite (index_Some _ _ _ Hj). simpl. f_equal.
    unfold is_byte in Hb.
    rewrite Z.quot_div_nonneg by lia. apply wrap8_small.
    unfold is_byte. split; [apply Z.div_pos; lia|].
    apply Z.div_lt_upper_bound; lia.
  - rewrite Z.mul_comm, Z.rem_mul by lia. lia.
Qed.

Lemma getNibble_odd (val : list Z) (j : nat) (b : Z) :
  val !! j = Some b → is_byte b →
  getNibble val (2 * Z.of_nat j + 1) = Some (b mod 16).
Proof.
  intros Hj Hb. unfold getNibble.
  assert (Hq : Z.quot (2 * Z.of_nat j + 1) 2 = Z.of_nat j).
  { rewrite Z.quot_div_nonneg by lia.
    symmetry. apply (Z.div_unique _ _ _ 1); lia. }
  assert (Hr : Z.rem (2 * Z.of_nat j + 1) 2 = 1).
  { rewrite Z.rem_mod_nonneg by lia.
    symmetry. apply (Z.mod_unique _ _ (Z.of_nat j)); lia. }
  rewrite bool_decide_eq_true_2 by done.
  rewrite Hq, Z.lor_0_r, (index_Some _ _ _ Hj). simpl. f_equal.
  unfold is_byte in Hb.
  rewrite Z.rem_mod_nonneg by lia. apply wrap8_small.
  unfold is_byte. pose proof (Z.mod_pos_bound b 16). lia.
Qed.

Lemma memcmp_spec (n : nat) : ∀ a b : list Z,
  (n ≤ length a)%nat → (n ≤ length b)%nat →
  ∃ c, memcmp a b n = Some c ∧ (c = 0 ↔ take n a = take n b).
Proof.
  induction n as [|n IH]; intros a b Ha Hb.
  - by exists 0.
  - destruct a as [|x a]; [simpl in Ha; lia|].
    destruct b as [|y b]; [simpl in Hb; lia|].
    simpl in *. case_bool_decide as Hxy.
    + destruct (IH a b) as (c & Hc & Hiff); [lia..|].
      exists c. split; [done|]. rewrite Hiff. subst y.
      split; [congruence|]. by intros [= ->].
    + exists (x - y). split; [done|].
      split; [lia|]. intros [= ? _]. done.
Qed.

(** ** The monad *)

Lemma bind_inr {A B} (c : M A) (k : A → M B) (m m' : machine) (a : A) :
  c m = (inr a, m') → bind c k m = k a m'.
Proof. intros H. unfold bind. by rewrite H. Qed.

Lemma bind_inl {A B} (c : M A) (k : A → M B) (m m' : machine) (f : fault) :
  c m = (inl f, m') → bind c k m = (inl f, m').
Proof. intros H. unfold bind. by rewrite H. Qed.

(** ** The two loops *)

Lemma decryptByte_run (o1 o2 : Z) (pre post : list Z) (b : Z) kr tr :
  let i := Z.of_nat (length pre) in
  0 ≤ o1 + i < 36 → 0 ≤ o2 + i < 36 →
  decryptByte o1 o2 i (Machine (pre ++ b :: post) kr tr)
  = (inr (),
     Machine (pre ++ wrap8 (b + (key_at (o1 + i) + key_at (o2 + i))) :: post)
       (kr ++ [o1 + i; o2 + i]) tr).
Proof.
  intros i H1 H2. unfold decryptByte.
  erewrite bind_inr; last first.
  { unfold load_pData. simpl. subst i. by rewrite index_middle. }
  erewrite bind_inr; last first.
  { unfold load_key. by rewrite index_key. }
  erewrite bind_inr; last first.
  { unfold load_key. by rewrite index_key. }
  unfold store_pData. simpl. subst i. rewrite update_middle.
  by rewrite <- app_assoc.
Qed.

Lemma decrypt_loop (o1 o2 : Z) (l : list Z) : ∀ (pre post : list Z) kr tr,
  0 ≤ o1 → 0 ≤ o2 →
  o1 + Z.of_nat (length pre) + Z.of_nat (length l) ≤ 36 →
  o2 + Z.of_nat (length pre) + Z.of_nat (length l) ≤ 36 →
  for_range (length l) (Z.of_nat (length pre)) (decryptByte o1 o2)
    (Machine (pre ++ l ++ post) kr tr)
  = (inr (),
     Machine (pre ++ add_key o1 o2 (Z.of_nat (length pre)) l ++ post)
       (kr ++ key_indices o1 o2 (Z.of_nat (length pre)) (length l)) tr).
Proof.
  induction l as [|b l IH]; intros pre post kr tr Ho1 Ho2 H1 H2.
  - simpl. by rewrite app_nil_r.
  - simpl in *.
    erewrite bind_inr; last by (apply decryptByte_run; lia).
    specialize (IH (pre ++ [wrap8 (b + (key_at (o1 + Z.of_nat (length pre))
                                        + key_at (o2 + Z.of_nat (length pre))))])
                   post (kr ++ [o1 + Z.of_nat (length pre); o2 + Z.of_nat (length pre)]) tr).
    rewrite length_app in IH. simpl in IH.
    replace (Z.of_nat (length pre + 1)) with (Z.of_nat (length pre) + 1) in IH by lia.
    rewrite <- !app_assoc in IH. simpl in IH.
    rewrite IH by lia. done.
Qed.

Lemma printByte_run (pre post : list Z) (b : Z) kr tr :
  printByte (Z.of_nat (length pre)) (Machine (pre ++ b :: post) kr tr)
  = (inr (), Machine (pre ++ b :: post) kr (tr ++ [SerialPrintHex b; SerialPrint " "])).
Proof.
  unfold printByte.
  erewrite bind_inr; last first.
  { unfold load_pData. simpl. by rewrite index_middle. }
  unfold bind, emit. simpl. by rewrite <- app_assoc.
Qed.

Lemma print_loop (l : list Z) : ∀ (pre post : list Z) kr tr,
  for_range (length l) (Z.of_nat (length pre)) printByte
    (Machine (pre ++ l ++ post) kr tr)
  = (inr (),
     Machine (pre ++ l ++ post) kr
       (tr ++ flat_map (λ b, [SerialPrintHex b; SerialPrint " "]) l)).
Proof.
  induction l as [|b l IH]; intros pre post kr tr.
  - simpl. by rewrite app_nil_r.
  - simpl.
    erewrite bind_inr; last by apply printByte_run.
    specialize (IH (pre ++ [b]) post kr (tr ++ [SerialPrintHex b; SerialPrint " "])).
    rewrite length_app in IH. simpl in IH.
    replace (Z.of_nat (length pre + 1)) with (Z.of_nat (length pre) + 1) in IH by lia.
    rewrite <- !app_assoc in IH. simpl in IH.
    by rewrite IH.
Qed.

(** ** The stages of the callback *)

Lemma byte_at_lookup (data : list Z) (i : nat) :
  (i < length data)%nat → data !! i = Some (byte_at data i).
Proof.
  intros Hi. unfold byte_at.
  destruct (lookup_lt_is_Some_2 data i Hi) as [b Hb]. by rewrite Hb.
Qed.

Lemma byte_at_byte (data : list Z) (i : nat) :
  bytes data → is_byte (byte_at data i).
Proof.
  intros Hd. unfold byte_at.
  destruct (data !! i) as [b|] eqn:E; [|by compute].
  simpl. by eapply (Forall_lookup_1 _ _ _ _ Hd).
Qed.

Lemma offset1_range (data : list Z) : bytes data → 0 ≤ offset1_of data ≤ 15.
Proof.
  intros Hd. pose proof (byte_at_byte data 19 Hd) as Hb.
  unfold offset1_of, is_byte in *. split; [apply Z.div_pos; lia|].
  apply Z.lt_succ_r. apply Z.div_lt_upper_bound; lia.
Qed.

Lemma offset2_range (data : list Z) : 0 ≤ offset2_of data ≤ 15.
Proof.
  unfold offset2_of. pose proof (Z.mod_pos_bound (byte_at data 19) 16). lia.
Qed.

Lemma length_add_key (o1 o2 : Z) (l : list Z) : ∀ i,
  length (add_key o1 o2 i l) = length l.
Proof. induction l as [|b l IH]; intros i; simpl; [done|]. by rewrite IH. Qed.

Lemma bytes_add_key (o1 o2 : Z) (l : list Z) : ∀ i, bytes (add_key o1 o2 i l).
Proof.
  induction l as [|b l IH]; intros i; simpl; constructor.
  - apply wrap8_byte.
  - apply IH.
Qed.

Lemma lookup_add_key (o1 o2 : Z) (l : list Z) : ∀ (i : Z) (j : nat) (b : Z),
  l !! j = Some b →
  add_key o1 o2 i l !! j
  = Some (wrap8 (b + (key_at (o1 + (i + Z.of_nat j)) + key_at (o2 + (i + Z.of_nat j))))).
Proof.
  induction l as [|x l IH]; intros i j b Hj; [done|].
  destruct j as [|j].
  - simpl in *. injection Hj as ->. by rewrite Z.add_0_r.
  - change (add_key o1 o2 i (x :: l) !! S j) with (add_key o1 o2 (i + 1) l !! j).
    rewrite (IH (i + 1) j b Hj).
    by replace (i + 1 + Z.of_nat j) with (i + Z.of_nat (S j)) by lia.
Qed.

Lemma length_decrypt (data : list Z) : length (decrypt data) = length data.
Proof.
  unfold decrypt. destruct (isEncrypted data); [|done].
  rewrite length_app, length_add_key, <- length_app. by rewrite take_drop.
Qed.

Lemma bytes_decrypt (data : list Z) : bytes data → bytes (decrypt data).
Proof.
  intros Hd. unfold decrypt. destruct (isEncrypted data); [|done].
  apply Forall_app. split; [apply bytes_add_key|by apply Forall_drop].
Qed.

Lemma decryptData_run (data : list Z) kr tr :
  bytes data → (20 ≤ length data)%nat →
  decryptData (Machine data kr tr)
  = (inr (),
     Machine (add_key (offset1_of data) (offset2_of data) 0 (take 20 data)
              ++ drop 20 data)
       (kr ++ key_indices (offset1_of data) (offset2_of data) 0 20) tr).
Proof.
  intros Hd Hlen. unfold decryptData.
  pose proof (byte_at_lookup data 19 ltac:(lia)) as H19.
  pose proof (byte_at_byte data 19 Hd) as Hb.
  pose proof (offset1_range data Hd) as Ho1.
  pose proof (offset2_range data) as Ho2.
  erewrite bind_inr; last first.
  { unfold getNibbleM. simpl pData.
    change 38 with (2 * Z.of_nat 19).
    by rewrite (getNibble_even _ _ _ H19 Hb). }
  erewrite bind_inr; last first.
  { unfold getNibbleM. simpl pData.
    change 39 with (2 * Z.of_nat 19 + 1).
    by rewrite (getNibble_odd _ _ _ H19 Hb). }
  fold (offset1_of data) (offset2_of data).
  unfold for_upto. change (Z.to_nat (20 - 0)) with 20%nat.
  pose proof (decrypt_loop (offset1_of data) (offset2_of data) (take 20 data)
                [] (drop 20 data) kr tr) as Hloop.
  rewrite length_take, Nat.min_l in Hloop by lia.
  simpl in Hloop. rewrite take_drop in Hloop.
  apply Hloop; lia.
Qed.

Lemma printState_run (d : list Z) kr tr :
  (16 ≤ length d)%nat →
  printState (Machine d kr tr) = (inr (), Machine d kr (tr ++ state_line d)).
Proof.
  intros Hlen. unfold printState.
  erewrite bind_inr; last by (unfold emit; simpl; reflexivity).
  unfold for_upto. change (Z.to_nat (16 - 0)) with 16%nat.
  pose proof (print_loop (take 16 d) [] (drop 16 d) kr
                (tr ++ [SerialPrint "Current State: "])) as Hloop.
  rewrite length_take, Nat.min_l in Hloop by lia.
  simpl in Hloop. rewrite take_drop in Hloop.
  erewrite bind_inr; last by apply Hloop.
  unfold emit, state_line. simpl. f_equal. f_equal.
  rewrite <- !app_assoc. done.
Qed.

Lemma printMove_run (d : list Z) kr tr :
  bytes d → (17 ≤ length d)%nat →
  printMove (Machine d kr tr)
  = match index faceNames (face_nibble d - 1) with
    | Some name =>
        (inr (), Machine d kr (tr ++ move_line name (direction_nibble d)))
    | None =>
        (inl (OutOfBounds "faceNames" (face_nibble d - 1)),
         Machine d kr (tr ++ [SerialPrint "Last Move: "]))
    end.
Proof.
  intros Hd Hlen. unfold printMove.
  pose proof (byte_at_lookup d 16 ltac:(lia)) as H16.
  pose proof (byte_at_byte d 16 Hd) as Hb.
  erewrite bind_inr; last first.
  { unfold getNibbleM. simpl pData.
    change 32 with (2 * Z.of_nat 16).
    by rewrite (getNibble_even _ _ _ H16 Hb). }
  erewrite bind_inr; last first.
  { unfold getNibbleM. simpl pData.
    change 33 with (2 * Z.of_nat 16 + 1).
    by rewrite (getNibble_odd _ _ _ H16 Hb). }
  fold (face_nibble d) (direction_nibble d).
  erewrite bind_inr; last by (unfold emit; simpl; reflexivity).
  destruct (index faceNames (face_nibble d - 1)) as [name|] eqn:E.
  - erewrite bind_inr; last by (simpl; reflexivity).
    unfold bind, emit, move_line. simpl. f_equal. f_equal.
    rewrite <- !app_assoc. done.
  - erewrite bind_inl; last by (simpl; reflexivity). done.
Qed.

Lemma checkSolved_run (d : list Z) kr tr :
  (16 ≤ length d)%nat →
  checkSolved (Machine d kr tr) = (inr (), Machine d kr (tr ++ relay_line d)).
Proof.
  intros Hlen. unfold checkSolved.
  destruct (memcmp_spec 16 d solution Hlen ltac:(simpl; lia)) as (c & Hc & Hiff).
  erewrite bind_inr; last first.
  { unfold memcmpM. simpl pData. rewrite Hc. simpl. reflexivity. }
  change (take 16 solution) with solution in Hiff.
  unfold relay_line, solved.
  case_bool_decide as Hz.
  - rewrite bool_decide_eq_true_2 by by apply Hiff.
    unfold bind, emit, relay_pulse. simpl. f_equal. f_equal.
    rewrite <- !app_assoc. done.
  - rewrite bool_decide_eq_false_2 by (by rewrite <- Hiff).
    unfold ret. by rewrite app_nil_r.
Qed.

(** The callback, on a buffer of at least 20 bytes, computes [outcome],
    whatever [length] and [isNotify] are and whatever the machine has
    logged before. *)
Lemma notifyCallback_run_from (data : list Z) (len : Z) (isNotify : bool) kr tr :
  bytes data → (20 ≤ length data)%nat →
  notifyCallback len isNotify (Machine data kr tr) = after kr tr (outcome data).
Proof.
  intros Hd Hlen. unfold notifyCallback.
  pose proof (byte_at_lookup data 18 ltac:(lia)) as H18.
  erewrite bind_inr; last first.
  { unfold load_pData. simpl pData. change 18 with (Z.of_nat 18).
    rewrite (index_Some _ _ _ H18). simpl. reflexivity. }
  pose proof (length_decrypt data) as Hl.
  pose proof (bytes_decrypt data Hd) as Hb.
  assert (Hdec : (if bool_decide (byte_at data 18 = 167) then decryptData else ret ())
                   (Machine data kr tr)
                 = (inr (), Machine (decrypt data) (kr ++ reads_of data) tr)).
  { unfold decrypt, reads_of, isEncrypted.
    case_bool_decide; [by rewrite decryptData_run|].
    by rewrite app_nil_r. }
  erewrite bind_inr; last by apply Hdec.
  erewrite bind_inr; last by (apply printState_run; lia).
  unfold outcome, after.
  pose proof (printMove_run (decrypt data) (kr ++ reads_of data)
                (tr ++ state_line (decrypt data)) Hb ltac:(lia)) as Hmove.
  destruct (index faceNames (face_nibble (decrypt data) - 1)) as [name|].
  - erewrite bind_inr; last by apply Hmove.
    rewrite checkSolved_run by lia.
    cbn [fst snd pData keyReads trace]. by rewrite <- !app_assoc.
  - erewrite bind_inl; last by apply Hmove.
    cbn [fst snd pData keyReads trace]. by rewrite <- !app_assoc.
Qed.

Lemma notify_outcome (data : list Z) :
  bytes data → (20 ≤ length data)%nat → notify data = outcome data.
Proof.
  intros Hd Hlen. unfold notify. rewrite notifyCallback_run_from by done.
  unfold after. simpl. by destruct (outcome data) as [r [d kr tr]].
Qed.

(** ** The decrypted buffer, byte by byte *)

Lemma isEncrypted_true (data : list Z) :
  (18 < length data)%nat → isEncrypted data = true ↔ data !! 18%nat = Some 0xA7.
Proof.
  intros Hlen. unfold isEncrypted. rewrite bool_decide_eq_true.
  rewrite (byte_at_lookup data 18 Hlen). split; congruence.
Qed.

Lemma add_key_app (o1 o2 : Z) (l1 l2 : list Z) : ∀ i,
  add_key o1 o2 i (l1 ++ l2)
  = add_key o1 o2 i l1 ++ add_key o1 o2 (i + Z.of_nat (length l1)) l2.
Proof.
  induction l1 as [|b l1 IH]; intros i.
  - simpl. by rewrite Z.add_0_r.
  - cbn [app add_key length]. rewrite IH. do 3 f_equal. lia.
Qed.

Lemma decrypt_lookup (data : list Z) (i : nat) :
  (20 ≤ length data)%nat → (i < 20)%nat →
  decrypt data !! i
  = Some (if isEncrypted data
          then wrap8 (byte_at data i
                      + (key_at (offset1_of data + Z.of_nat i)
                         + key_at (offset2_of data + Z.of_nat i)))
          else byte_at data i).
Proof.
  intros Hlen Hi. unfold decrypt. destruct (isEncrypted data).
  - rewrite lookup_app_l by (rewrite length_add_key, length_take; lia).
    erewrite lookup_add_key; [done|].
    rewrite lookup_take_lt by lia. apply byte_at_lookup. lia.
  - apply byte_at_lookup. lia.
Qed.

Lemma decrypt_tail (data : list Z) (i : nat) :
  (20 ≤ i)%nat → decrypt data !! i = data !! i.
Proof.
  intros Hi. unfold decrypt. destruct (isEncrypted data); [|done].
  destruct (decide (length data ≤ 20)%nat) as [Hle|Hgt].
  - rewrite drop_ge, app_nil_r by lia.
    rewrite !lookup_ge_None_2; [done|lia|].
    rewrite length_add_key, length_take. lia.
  - rewrite lookup_app_r; rewrite length_add_key, length_take, Nat.min_l by lia; [|lia].
    rewrite lookup_drop. f_equal. lia.
Qed.

(** ** Reading the closed form *)

Lemma outcome_pData (data : list Z) : pData (outcome data).2 = decrypt data.
Proof. unfold outcome. by destruct (index faceNames _). Qed.

Lemma outcome_keyReads (data : list Z) : keyReads (outcome data).2 = reads_of data.
Proof. unfold outcome. by destruct (index faceNames _). Qed.

Lemma printed_bytes_dump (l : list Z) :
  printed_bytes (flat_map (λ b, [SerialPrintHex b; SerialPrint " "]) l) = l.
Proof. induction l as [|b l IH]; [done|]. simpl. by rewrite IH. Qed.

Lemma printed_bytes_state_line (d : list Z) :
  printed_bytes (state_line d) = take 16 d.
Proof.
  unfold state_line, printed_bytes. cbn [omap list_omap].
  fold (printed_bytes (flat_map (λ b, [SerialPrintHex b; SerialPrint " "]) (take 16 d)
                       ++ [SerialPrintln ""])).
  unfold printed_bytes. rewrite omap_app.
  fold (printed_bytes (flat_map (λ b, [SerialPrintHex b; SerialPrint " "]) (take 16 d))).
  rewrite printed_bytes_dump. simpl. by rewrite app_nil_r.
Qed.

Lemma outcome_printed (data : list Z) :
  printed_bytes (trace (outcome data).2) = take 16 (decrypt data).
Proof.
  unfold outcome. destruct (index faceNames _); cbn [snd trace];
    unfold printed_bytes; rewrite !omap_app;
    fold (printed_bytes (state_line (decrypt data)));
    rewrite printed_bytes_state_line.
  - unfold relay_line, relay_pulse. destruct (solved _); simpl; by rewrite app_nil_r.
  - simpl. by rewrite app_nil_r.
Qed.

Lemma notify_pData (data : list Z) :
  bytes data → (20 ≤ length data)%nat → pData (notify data).2 = decrypt data.
Proof. intros. rewrite notify_outcome by done. apply outcome_pData. Qed.

Lemma notify_keyReads (data : list Z) :
  bytes data → (20 ≤ length data)%nat → keyReads (notify data).2 = reads_of data.
Proof. intros. rewrite notify_outcome by done. apply outcome_keyReads. Qed.

Lemma decrypt_marked (data : list Z) :
  length data = 20%nat → data !! 18%nat = Some 0xA7 →
  decrypt data = add_key (offset1_of data) (offset2_of data) 0 data.
Proof.
  intros Hlen H18. unfold decrypt.
  rewrite (proj2 (isEncrypted_true data ltac:(lia)) H18).
  rewrite take_ge, drop_ge by lia. by rewrite app_nil_r.
Qed.

Lemma decrypt_unmarked (data : list Z) :
  (18 < length data)%nat → data !! 18%nat ≠ Some 0xA7 → decrypt data = data.
Proof.
  intros Hlen H18. unfold decrypt.
  destruct (isEncrypted data) eqn:E; [|done].
  by apply isEncrypted_true in E.
Qed.

Lemma key_indices_bounds (o1 o2 : Z) (n : nat) : ∀ i,
  0 ≤ o1 → 0 ≤ o2 → 0 ≤ i →
  o1 + i + Z.of_nat n ≤ 36 → o2 + i + Z.of_nat n ≤ 36 →
  Forall (λ j, 0 ≤ j < 36) (key_indices o1 o2 i n).
Proof.
  induction n as [|n IH]; intros i Ho1 Ho2 Hi H1 H2; simpl; [done|].
  constructor; [lia|]. constructor; [lia|]. apply IH; lia.
Qed.

Lemma key_sum_18 (o1 o2 : Z) :
  0 ≤ o1 ≤ 15 → 0 ≤ o2 ≤ 15 →
  wrap8 (0xA7 + (key_at (o1 + 18) + key_at (o2 + 18))) ≠ 0xA7.
Proof.
  intros H1 H2.
  assert (Hall : forallb (λ a, forallb (λ b,
            negb (wrap8 (0xA7 + (key_at (a + 18) + key_at (b + 18))) =? 0xA7))
            (seqZ 0 16)) (seqZ 0 16) = true) by (vm_compute; reflexivity).
  rewrite forallb_forall in Hall.
  specialize (Hall o1). rewrite <- list_elem_of_In, elem_of_seqZ in Hall.
  specialize (Hall ltac:(lia)). rewrite forallb_forall in Hall.
  specialize (Hall o2). rewrite <- list_elem_of_In, elem_of_seqZ in Hall.
  specialize (Hall ltac:(lia)).
  apply negb_true_iff, Z.eqb_neq in Hall. done.
Qed.

(** * The claims *)

(** C1: for every 20-byte payload whose byte 18 is 0xA7, the callback takes
    offset1 from the high nibble and offset2 from the low nibble of byte 19
    (nibbles 38 and 39), and leaves in each byte [i] of the buffer
    [(payload[i] + key[offset1 + i] + key[offset2 + i]) mod 256], the key
    bytes being read from the 36-byte table. *)
Theorem decrypt_adds_key_bytes (data : list Z) :
  bytes data → length data = 20%nat → data !! 18%nat = Some 0xA7 →
  ∃ b19 : Z,
    data !! 19%nat = Some b19 ∧
    getNibble data 38 = Some (b19 / 16) ∧
    getNibble data 39 = Some (b19 mod 16) ∧
    b19 / 16 = Z.shiftr b19 4 ∧
    b19 mod 16 = Z.land b19 15 ∧
    length (pData (notify data).2) = 20%nat ∧
    ∀ i : nat, (i < 20)%nat →
      ∃ p k1 k2 : Z,
        data !! i = Some p ∧
        index decryptionKey (b19 / 16 + Z.of_nat i) = Some k1 ∧
        index decryptionKey (b19 mod 16 + Z.of_nat i) = Some k2 ∧
        pData (notify data).2 !! i = Some ((p + k1 + k2) mod 256).
Proof.
  intros Hd Hlen H18.
  pose proof (byte_at_lookup data 19 ltac:(lia)) as H19.
  pose proof (byte_at_byte data 19 Hd) as Hb.
  pose proof (offset1_range data Hd) as Ho1.
  pose proof (offset2_range data) as Ho2.
  exists (byte_at data 19). split; [done|].
  split; [exact (getNibble_even _ 19 _ H19 Hb)|].
  split; [exact (getNibble_odd _ 19 _ H19 Hb)|].
  split; [by rewrite Z.shiftr_div_pow2|].
  split; [by rewrite (Z.land_ones _ 4)|].
  rewrite notify_pData by (done || lia).
  split; [by rewrite length_decrypt|].
  intros i Hi. fold (offset1_of data) (offset2_of data).
  exists (byte_at data i),
    (key_at (offset1_of data + Z.of_nat i)), (key_at (offset2_of data + Z.of_nat i)).
  split; [apply byte_at_lookup; lia|].
  split; [apply index_key; lia|].
  split; [apply index_key; lia|].
  rewrite decrypt_lookup by lia.
  rewrite (proj2 (isEncrypted_true data ltac:(lia)) H18).
  unfold wrap8. by rewrite Z.add_assoc.
Qed.

Lemma decrypt_adds_key_bytes_witness :
  ∃ b19 : Z,
    encrypted_example_1 !! 19%nat = Some b19 ∧
    getNibble encrypted_example_1 38 = Some (b19 / 16) ∧
    getNibble encrypted_example_1 39 = Some (b19 mod 16) ∧
    b19 / 16 = Z.shiftr b19 4 ∧
    b19 mod 16 = Z.land b19 15 ∧
    length (pData (notify encrypted_example_1).2) = 20%nat ∧
    ∀ i : nat, (i < 20)%nat →
      ∃ p k1 k2 : Z,
        encrypted_example_1 !! i = Some p ∧
        index decryptionKey (b19 / 16 + Z.of_nat i) = Some k1 ∧
        index decryptionKey (b19 mod 16 + Z.of_nat i) = Some k2 ∧
        pData (notify encrypted_example_1).2 !! i = Some ((p + k1 + k2) mod 256).
Proof.
  apply (decrypt_adds_key_bytes encrypted_example_1);
    [solve_bytes | reflexivity | reflexivity].
Defined.

(** C4: the payload is treated as encrypted, and the transform applied,
    exactly when its byte 18 is 0xA7: then the key table is read and the
    buffer becomes the transformed payload, which differs from the payload;
    for any other byte 18 the table is not read and the buffer is left as
    received. *)
Theorem transform_iff_marker (data : list Z) :
  bytes data → length data = 20%nat →
  (keyReads (notify data).2 ≠ [] ↔ data !! 18%nat = Some 0xA7) ∧
  (pData (notify data).2 ≠ data ↔ data !! 18%nat = Some 0xA7) ∧
  (data !! 18%nat = Some 0xA7 →
     pData (notify data).2
     = add_key (offset1_of data) (offset2_of data) 0 data) ∧
  (data !! 18%nat ≠ Some 0xA7 →
     pData (notify data).2 = data ∧ keyReads (notify data).2 = []).
Proof.
  intros Hd Hlen.
  rewrite notify_pData, notify_keyReads by (done || lia).
  pose proof (isEncrypted_true data ltac:(lia)) as Henc.
  assert (Hyes : data !! 18%nat = Some 0xA7 →
                 reads_of data ≠ [] ∧ decrypt data ≠ data).
  { intros H18. split.
    - unfold reads_of. by rewrite (proj2 Henc H18).
    - intros Heq. pose proof (decrypt_lookup data 18 ltac:(lia) ltac:(lia)) as Hl.
      rewrite Heq, (proj2 Henc H18), H18 in Hl.
      injection Hl as Hl. unfold byte_at in Hl. rewrite H18 in Hl. simpl in Hl.
      symmetry in Hl. revert Hl.
      apply key_sum_18; [apply offset1_range; done|apply offset2_range]. }
  assert (Hno : data !! 18%nat ≠ Some 0xA7 →
                decrypt data = data ∧ reads_of data = []).
  { intros H18. split; [apply decrypt_unmarked; [lia|done]|].
    unfold reads_of. destruct (isEncrypted data); [|done].
    exfalso. apply H18. by apply Henc. }
  split; [|split; [|split]].
  - split; [|by intros H18; apply Hyes].
    intros Hne. destruct (decide (data !! 18%nat = Some 0xA7)) as [|Hn]; [done|].
    by destruct (Hno Hn).
  - split; [|by intros H18; apply Hyes].
    intros Hne. destruct (decide (data !! 18%nat = Some 0xA7)) as [|Hn]; [done|].
    by destruct (Hno Hn).
  - intros H18. by apply decrypt_marked.
  - done.
Qed.

Lemma transform_iff_marker_witness :
  (keyReads (notify encrypted_example_2).2 ≠ []
   ↔ encrypted_example_2 !! 18%nat = Some 0xA7) ∧
  (pData (notify encrypted_example_2).2 ≠ encrypted_example_2
   ↔ encrypted_example_2 !! 18%nat = Some 0xA7) ∧
  (encrypted_example_2 !! 18%nat = Some 0xA7 →
     pData (notify encrypted_example_2).2
     = add_key (offset1_of encrypted_example_2) (offset2_of encrypted_example_2)
         0 encrypted_example_2) ∧
  (encrypted_example_2 !! 18%nat ≠ Some 0xA7 →
     pData (notify encrypted_example_2).2 = encrypted_example_2
     ∧ keyReads (notify encrypted_example_2).2 = []).
Proof.
  apply (transform_iff_marker encrypted_example_2); [solve_bytes | reflexivity].
Defined.

(** C8: for every 20-byte payload whose byte 18 is not 0xA7, the callback
    leaves all 20 bytes of the buffer as they were and reports bytes 0-15
    verbatim as the cube state. *)
Theorem plain_payload_verbatim (data : list Z) :
  bytes data → length data = 20%nat → data !! 18%nat ≠ Some 0xA7 →
  pData (notify data).2 = data ∧
  printed_bytes (trace (notify data).2) = take 16 data.
Proof.
  intros Hd Hlen H18.
  rewrite notify_outcome by (done || lia).
  rewrite outcome_pData, outcome_printed.
  by rewrite decrypt_unmarked by (done || lia).
Qed.

Lemma plain_payload_verbatim_witness :
  pData (notify plain_example).2 = plain_example ∧
  printed_bytes (trace (notify plain_example).2) = take 16 plain_example.
Proof.
  apply (plain_payload_verbatim plain_example);
    [solve_bytes | reflexivity | discriminate].
Defined.

(** C9: for every 20-byte payload the two offsets given by the nibble
    extractor lie in [0, 15], so every index at which the key table is read
    while decrypting, [offset1 + i] and [offset2 + i] for [i] in [0, 20), is
    below 36, the length of the table: no read of the key is out of
    bounds. *)
Theorem key_reads_in_bounds (data : list Z) :
  bytes data → length data = 20%nat →
  ∃ offset1 offset2 : Z,
    getNibble data 38 = Some offset1 ∧
    getNibble data 39 = Some offset2 ∧
    0 ≤ offset1 ≤ 15 ∧ 0 ≤ offset2 ≤ 15 ∧
    length decryptionKey = 36%nat ∧
    (∀ i : Z, 0 ≤ i < 20 →
       0 ≤ offset1 + i < Z.of_nat (length decryptionKey) ∧
       0 ≤ offset2 + i < Z.of_nat (length decryptionKey) ∧
       is_Some (index decryptionKey (offset1 + i)) ∧
       is_Some (index decryptionKey (offset2 + i))) ∧
    Forall (λ j, 0 ≤ j < Z.of_nat (length decryptionKey))
      (keyReads (notify data).2) ∧
    (data !! 18%nat = Some 0xA7 →
       keyReads (notify data).2 = key_indices offset1 offset2 0 20 ∧
       (decryptData (Machine data [] [])).1 = inr ()).
Proof.
  intros Hd Hlen.
  pose proof (byte_at_lookup data 19 ltac:(lia)) as H19.
  pose proof (byte_at_byte data 19 Hd) as Hb.
  pose proof (offset1_range data Hd) as Ho1.
  pose proof (offset2_range data) as Ho2.
  exists (offset1_of data), (offset2_of data).
  split; [exact (getNibble_even _ 19 _ H19 Hb)|].
  split; [exact (getNibble_odd _ 19 _ H19 Hb)|].
  split; [done|]. split; [done|]. split; [done|].
  change (Z.of_nat (length decryptionKey)) with 36.
  split; [|split].
  - intros i Hi. split; [lia|]. split; [lia|].
    rewrite !index_key by lia. by split.
  - rewrite notify_keyReads by (done || lia). unfold reads_of.
    destruct (isEncrypted data); [|done].
    apply key_indices_bounds; simpl; lia.
  - intros H18. rewrite notify_keyReads by (done || lia). unfold reads_of.
    rewrite (proj2 (isEncrypted_true data ltac:(lia)) H18).
    split; [done|]. by rewrite decryptData_run by (done || lia).
Qed.

Lemma key_reads_in_bounds_witness :
  ∃ offset1 offset2 : Z,
    getNibble encrypted_example_1 38 = Some offset1 ∧
    getNibble encrypted_example_1 39 = Some offset2 ∧
    0 ≤ offset1 ≤ 15 ∧ 0 ≤ offset2 ≤ 15 ∧
    length decryptionKey = 36%nat ∧
    (∀ i : Z, 0 ≤ i < 20 →
       0 ≤ offset1 + i < Z.of_nat (length decryptionKey) ∧
       0 ≤ offset2 + i < Z.of_nat (length decryptionKey) ∧
       is_Some (index decryptionKey (offset1 + i)) ∧
       is_Some (index decryptionKey (offset2 + i))) ∧
    Forall (λ j, 0 ≤ j < Z.of_nat (length decryptionKey))
      (keyReads (notify encrypted_example_1).2) ∧
    (encrypted_example_1 !! 18%nat = Some 0xA7 →
       keyReads (notify encrypted_example_1).2 = key_indices offset1 offset2 0 20 ∧
       (decryptData (Machine encrypted_example_1 [] [])).1 = inr ()).
Proof.
  apply (key_reads_in_bounds encrypted_example_1); [solve_bytes | reflexivity].
Defined.

(** C10: the offsets are taken from byte 19 as received, before any byte is
    written; byte 19 itself is overwritten by the last round of the loop,
    yet every byte, byte 19 included, is transformed with the offsets of
    the received payload.  The decrypted buffer therefore depends on the 20
    received bytes and the key alone: not on [length], on [isNotify], or on
    anything the machine did before. *)
Theorem offsets_read_before_writes (data : list Z) :
  bytes data → length data = 20%nat → data !! 18%nat = Some 0xA7 →
  ∃ b19 : Z,
    data !! 19%nat = Some b19 ∧
    pData (notify data).2 = add_key (b19 / 16) (b19 mod 16) 0 data ∧
    pData (notify data).2 !! 19%nat
    = Some (wrap8 (b19 + (key_at (b19 / 16 + 19) + key_at (b19 mod 16 + 19)))) ∧
    ∀ (len : Z) (isNotify : bool) (kr : list Z) (tr : list event),
      pData (notifyCallback len isNotify (Machine data kr tr)).2
      = pData (notify data).2.
Proof.
  intros Hd Hlen H18.
  exists (byte_at data 19). split; [apply byte_at_lookup; lia|].
  rewrite notify_pData by (done || lia).
  split; [by apply decrypt_marked|]. split.
  - rewrite decrypt_lookup by lia.
    by rewrite (proj2 (isEncrypted_true data ltac:(lia)) H18).
  - intros len isNotify kr tr.
    rewrite notifyCallback_run_from by (done || lia).
    unfold after. cbn [snd pData]. apply outcome_pData.
Qed.

Lemma offsets_read_before_writes_witness :
  ∃ b19 : Z,
    encrypted_example_2 !! 19%nat = Some b19 ∧
    pData (notify encrypted_example_2).2
    = add_key (b19 / 16) (b19 mod 16) 0 encrypted_example_2 ∧
    pData (notify encrypted_example_2).2 !! 19%nat
    = Some (wrap8 (b19 + (key_at (b19 / 16 + 19) + key_at (b19 mod 16 + 19)))) ∧
    ∀ (len : Z) (isNotify : bool) (kr : list Z) (tr : list event),
      pData (notifyCallback len isNotify (Machine encrypted_example_2 kr tr)).2
      = pData (notify encrypted_example_2).2.
Proof.
  apply (offsets_read_before_writes encrypted_example_2);
    [solve_bytes | reflexivity | reflexivity].
Defined.

(** ** The forward transform and its inverse *)

Lemma length_sub_key (o1 o2 : Z) (l : list Z) : ∀ i,
  length (sub_key o1 o2 i l) = length l.
Proof. induction l as [|b l IH]; intros i; simpl; [done|]. by rewrite IH. Qed.

Lemma bytes_sub_key (o1 o2 : Z) (l : list Z) : ∀ i, bytes (sub_key o1 o2 i l).
Proof.
  induction l as [|b l IH]; intros i; simpl; constructor.
  - apply wrap8_byte.
  - apply IH.
Qed.

Lemma add_after_sub (b k : Z) :
  is_byte b → wrap8 (wrap8 (b + (256 - wrap8 k)) + k) = b.
Proof.
  unfold is_byte, wrap8. intros Hb.
  rewrite Z.add_mod_idemp_l by lia.
  replace (b + (256 - k mod 256) + k) with (b + (1 + k / 256) * 256)
    by (pose proof (Z.div_mod k 256); lia).
  rewrite Z.mod_add by lia. by apply Z.mod_small.
Qed.

Lemma sub_after_add (b k : Z) :
  is_byte b → wrap8 (wrap8 (b + k) + (256 - wrap8 k)) = b.
Proof.
  unfold is_byte, wrap8. intros Hb.
  rewrite Z.add_mod_idemp_l by lia.
  replace (b + k + (256 - k mod 256)) with (b + (1 + k / 256) * 256)
    by (pose proof (Z.div_mod k 256); lia).
  rewrite Z.mod_add by lia. by apply Z.mod_small.
Qed.

Lemma add_key_sub_key (o1 o2 : Z) (l : list Z) : ∀ i,
  bytes l → add_key o1 o2 i (sub_key o1 o2 i l) = l.
Proof.
  induction l as [|b l IH]; intros i Hl; [done|].
  apply Forall_cons in Hl as [Hb Hl]. simpl.
  by rewrite add_after_sub, IH.
Qed.

Lemma sub_key_add_key (o1 o2 : Z) (l : list Z) : ∀ i,
  bytes l → sub_key o1 o2 i (add_key o1 o2 i l) = l.
Proof.
  induction l as [|b l IH]; intros i Hl; [done|].
  apply Forall_cons in Hl as [Hb Hl]. simpl.
  by rewrite sub_after_add, IH.
Qed.

Lemma offsets_of_marked (body : list Z) (o1 o2 : Z) :
  length body = 18%nat → 0 ≤ o1 ≤ 15 → 0 ≤ o2 ≤ 15 →
  let sent := body ++ [0xA7; 16 * o1 + o2] in
  sent !! 18%nat = Some 0xA7 ∧ sent !! 19%nat = Some (16 * o1 + o2) ∧
  offset1_of sent = o1 ∧ offset2_of sent = o2 ∧ length sent = 20%nat.
Proof.
  intros Hlen Ho1 Ho2 sent. subst sent.
  assert (H19 : (body ++ [0xA7; 16 * o1 + o2]) !! 19%nat = Some (16 * o1 + o2)).
  { rewrite lookup_app_r by lia. by rewrite Hlen. }
  split; [rewrite lookup_app_r by lia; by rewrite Hlen|].
  split; [done|]. unfold offset1_of, offset2_of, byte_at. rewrite H19. simpl.
  split; [symmetry; apply (Z.div_unique _ _ _ o2); lia|].
  split; [symmetry; apply (Z.mod_unique _ _ o1); lia|].
  rewrite length_app. simpl. lia.
Qed.

(** C2: for every 16 bytes of piece state (followed by any two move bytes)
    and every pair of offsets in [0, 15], the payload obtained by the
    forward transform with those offsets, with 0xA7 at offset 18 and the
    offsets as the nibbles of byte 19, is decoded by the callback to the
    original piece-state bytes 0-15; and the other way round, decoding a
    marked payload and transforming the result forward gives the payload
    back: the two transforms are inverse to each other modulo 256. *)
Theorem obfuscate_then_decode (state rest : list Z) (offset1 offset2 : Z) :
  bytes state → length state = 16%nat →
  bytes rest → length rest = 2%nat →
  0 ≤ offset1 ≤ 15 → 0 ≤ offset2 ≤ 15 →
  let wire := obfuscate offset1 offset2 (state ++ rest) in
  let sent := (state ++ rest) ++ [0xA7; 16 * offset1 + offset2] in
  (length wire = 20%nat ∧ bytes wire ∧
   wire !! 18%nat = Some 0xA7 ∧
   getNibble wire 38 = Some offset1 ∧ getNibble wire 39 = Some offset2) ∧
  take 16 (pData (notify wire).2) = state ∧
  printed_bytes (trace (notify wire).2) = state ∧
  take 18 (pData (notify wire).2) = state ++ rest ∧
  obfuscate offset1 offset2 (take 18 (pData (notify sent).2)) = sent.
Proof.
  intros Hs Hls Hr Hlr Ho1 Ho2 wire sent.
  assert (Hplain : bytes (state ++ rest)) by (apply Forall_app; done).
  assert (Hlp : length (state ++ rest) = 18%nat) by (rewrite length_app; lia).
  assert (Hob : is_byte (16 * offset1 + offset2)) by (unfold is_byte; lia).
  destruct (offsets_of_marked (sub_key offset1 offset2 0 (state ++ rest))
              offset1 offset2) as (Hw18 & Hw19 & Hwo1 & Hwo2 & Hwl);
    [by rewrite length_sub_key|done..|].
  destruct (offsets_of_marked (state ++ rest) offset1 offset2)
    as (Hs18 & Hs19 & Hso1 & Hso2 & Hsl); [done..|].
  fold (obfuscate offset1 offset2 (state ++ rest)) in Hw18, Hw19, Hwo1, Hwo2, Hwl.
  fold wire in Hw18, Hw19, Hwo1, Hwo2, Hwl.
  fold sent in Hs18, Hs19, Hso1, Hso2, Hsl.
  assert (Htail : bytes [0xA7; 16 * offset1 + offset2]).
  { apply Forall_cons. split; [unfold is_byte; lia|].
    apply Forall_cons. split; [done|]. apply Forall_nil_2. }
  assert (Hwb : bytes wire) by (apply Forall_app; split; [apply bytes_sub_key|done]).
  assert (Hsb : bytes sent) by (apply Forall_app; done).
  assert (Hdw : decrypt wire
                = (state ++ rest) ++ add_key offset1 offset2 18 [0xA7; 16 * offset1 + offset2]).
  { rewrite decrypt_marked, Hwo1, Hwo2 by done.
    unfold wire, obfuscate. rewrite add_key_app, length_sub_key, Hlp.
    by rewrite add_key_sub_key. }
  assert (Hds : decrypt sent
                = add_key offset1 offset2 0 (state ++ rest)
                  ++ add_key offset1 offset2 18 [0xA7; 16 * offset1 + offset2]).
  { rewrite decrypt_marked, Hso1, Hso2 by done.
    unfold sent. by rewrite add_key_app, Hlp. }
  split.
  { split; [done|]. split; [done|]. split; [done|].
    change 38 with (2 * Z.of_nat 19). change 39 with (2 * Z.of_nat 19 + 1).
    rewrite (getNibble_even _ _ _ Hw19 Hob), (getNibble_odd _ _ _ Hw19 Hob).
    unfold offset1_of, offset2_of, byte_at in Hwo1, Hwo2.
    rewrite Hw19 in Hwo1, Hwo2. simpl in Hwo1, Hwo2. by rewrite Hwo1, Hwo2. }
  rewrite !notify_outcome by (done || lia).
  rewrite outcome_printed, !outcome_pData, Hdw, Hds.
  rewrite <- (app_assoc state rest).
  rewrite (take_app_length' state) by done.
  split; [done|]. split; [done|].
  rewrite (app_assoc state rest).
  rewrite (take_app_length' (state ++ rest)) by done.
  split; [done|].
  rewrite take_app_length' by (by rewrite length_add_key).
  unfold obfuscate. by rewrite sub_key_add_key.
Qed.

Lemma obfuscate_then_decode_witness :
  let wire := obfuscate 15 1 (solution ++ [0x53; 0x51]) in
  let sent := (solution ++ [0x53; 0x51]) ++ [0xA7; 16 * 15 + 1] in
  (length wire = 20%nat ∧ bytes wire ∧
   wire !! 18%nat = Some 0xA7 ∧
   getNibble wire 38 = Some 15 ∧ getNibble wire 39 = Some 1) ∧
  take 16 (pData (notify wire).2) = solution ∧
  printed_bytes (trace (notify wire).2) = solution ∧
  take 18 (pData (notify wire).2) = solution ++ [0x53; 0x51] ∧
  obfuscate 15 1 (take 18 (pData (notify sent).2)) = sent.
Proof.
  apply (obfuscate_then_decode solution [0x53; 0x51] 15 1);
    [solve_bytes | reflexivity | solve_bytes | reflexivity | lia | lia].
Defined.

(** The forward transform reproduces the encrypted payload quoted in the
    sketch from the solved state it stands for. *)
Example obfuscate_quoted_payload :
  obfuscate 15 1 (solution ++ [0x53; 0x51]) = encrypted_example_1.
Proof. reflexivity. Qed.

(** ** The face table and the move *)

Lemma face_of_nibble_index (n : Z) (f : Face) :
  face_of_nibble n = Some f → index faceNames (n - 1) = Some (face_name f).
Proof.
  unfold face_of_nibble. intros H.
  repeat case_match; simplify_eq; reflexivity.
Qed.

Lemma face_of_nibble_range (n : Z) :
  is_Some (face_of_nibble n) ↔ 1 ≤ n ≤ 6.
Proof.
  split.
  - intros [f H]. unfold face_of_nibble in H.
    repeat case_match; simplify_eq; lia.
  - intros H.
    assert (n = 1 ∨ n = 2 ∨ n = 3 ∨ n = 4 ∨ n = 5 ∨ n = 6) as Hn by lia.
    destruct Hn as [->|[->|[->|[->|[->| ->]]]]]; by eexists.
Qed.

Lemma faceNames_index (n : Z) :
  is_Some (index faceNames (n - 1)) ↔ 1 ≤ n ≤ 6.
Proof.
  unfold index. case_bool_decide as Hn.
  - rewrite lookup_lt_is_Some. simpl. lia.
  - split; [by intros [? ?]|lia].
Qed.

Lemma face_nibble_get (d : list Z) :
  bytes d → (16 < length d)%nat →
  getNibble d 32 = Some (face_nibble d) ∧
  getNibble d 33 = Some (direction_nibble d).
Proof.
  intros Hd Hlen.
  pose proof (byte_at_lookup d 16 Hlen) as H16.
  pose proof (byte_at_byte d 16 Hd) as Hb.
  split.
  - exact (getNibble_even _ 16 _ H16 Hb).
  - exact (getNibble_odd _ 16 _ H16 Hb).
Qed.

(** C5: in every decoded payload the face of the move is the high nibble of
    byte 16 (nibble 32) taken as a 1-based index, 1 = Front, 2 = Bottom,
    3 = Right, 4 = Top, 5 = Left, 6 = Back, and the direction is clockwise
    exactly when the low nibble of byte 16 (nibble 33) is 1 and
    anticlockwise for every other value; 0x11 is Front clockwise, 0x12 Front
    anticlockwise, 0x63 Back anticlockwise. *)
Theorem move_decoding (data : list Z) :
  bytes data → length data = 20%nat →
  let d := pData (notify data).2 in
  ∃ b16 : Z,
    d !! 16%nat = Some b16 ∧
    getNibble d 32 = Some (b16 / 16) ∧
    getNibble d 33 = Some (b16 mod 16) ∧
    (∀ f : Face, face_of_nibble (b16 / 16) = Some f →
       notify data
       = (inr (),
          Machine d (keyReads (notify data).2)
            (state_line d
             ++ move_report f (direction_of_nibble (b16 mod 16))
             ++ relay_line d))) ∧
    (direction_of_nibble (b16 mod 16) = Clockwise ↔ b16 mod 16 = 1) ∧
    (b16 = 0x11 →
       trace (notify data).2
       = state_line d ++ move_report Front Clockwise ++ relay_line d) ∧
    (b16 = 0x12 →
       trace (notify data).2
       = state_line d ++ move_report Front CounterClockwise ++ relay_line d) ∧
    (b16 = 0x63 →
       trace (notify data).2
       = state_line d ++ move_report Back CounterClockwise ++ relay_line d).
Proof.
  intros Hd Hlen d. subst d.
  rewrite notify_outcome by (done || lia). rewrite outcome_pData, outcome_keyReads.
  pose proof (length_decrypt data) as Hl.
  pose proof (bytes_decrypt data Hd) as Hb.
  destruct (face_nibble_get (decrypt data) Hb ltac:(lia)) as [H32 H33].
  exists (byte_at (decrypt data) 16).
  split; [apply byte_at_lookup; lia|].
  split; [done|]. split; [done|].
  fold (face_nibble (decrypt data)) (direction_nibble (decrypt data)).
  assert (Hrun : ∀ f : Face, face_of_nibble (face_nibble (decrypt data)) = Some f →
            outcome data
            = (inr (),
               Machine (decrypt data) (reads_of data)
                 (state_line (decrypt data)
                  ++ move_report f (direction_of_nibble (direction_nibble (decrypt data)))
                  ++ relay_line (decrypt data)))).
  { intros f Hf. unfold outcome.
    rewrite (face_of_nibble_index _ _ Hf).
    unfold move_line, move_report, direction_of_nibble.
    by case_bool_decide. }
  split; [done|].
  split; [unfold direction_of_nibble; by case_bool_decide|].
  unfold face_nibble, direction_nibble in Hrun.
  split; [|split]; intros Hb16; rewrite Hb16 in Hrun.
  - by rewrite (Hrun Front).
  - by rewrite (Hrun Front).
  - by rewrite (Hrun Back).
Qed.

Lemma move_decoding_witness :
  let d := pData (notify encrypted_example_1).2 in
  ∃ b16 : Z,
    d !! 16%nat = Some b16 ∧
    getNibble d 32 = Some (b16 / 16) ∧
    getNibble d 33 = Some (b16 mod 16) ∧
    (∀ f : Face, face_of_nibble (b16 / 16) = Some f →
       notify encrypted_example_1
       = (inr (),
          Machine d (keyReads (notify encrypted_example_1).2)
            (state_line d
             ++ move_report f (direction_of_nibble (b16 mod 16))
             ++ relay_line d))) ∧
    (direction_of_nibble (b16 mod 16) = Clockwise ↔ b16 mod 16 = 1) ∧
    (b16 = 0x11 →
       trace (notify encrypted_example_1).2
       = state_line d ++ move_report Front Clockwise ++ relay_line d) ∧
    (b16 = 0x12 →
       trace (notify encrypted_example_1).2
       = state_line d ++ move_report Front CounterClockwise ++ relay_line d) ∧
    (b16 = 0x63 →
       trace (notify encrypted_example_1).2
       = state_line d ++ move_report Back CounterClockwise ++ relay_line d).
Proof.
  apply (move_decoding encrypted_example_1); [solve_bytes | reflexivity].
Defined.

(** The three moves of the specification's examples, in the clear on a
    solved cube. *)
Example move_0x11 :
  trace (notify (solution ++ [0x11; 0; 0; 0])).2
  = state_line solution ++ move_report Front Clockwise ++ relay_pulse.
Proof. reflexivity. Qed.

Example move_0x12 :
  trace (notify (solution ++ [0x12; 0; 0; 0])).2
  = state_line solution ++ move_report Front CounterClockwise ++ relay_pulse.
Proof. reflexivity. Qed.

Example move_0x63 :
  trace (notify (solution ++ [0x63; 0; 0; 0])).2
  = state_line solution ++ move_report Back CounterClockwise ++ relay_pulse.
Proof. reflexivity. Qed.

(** ** The relay *)

Lemma pin_not_in_dump (l : list Z) (pin : Z) (level : bool) :
  DigitalWrite pin level ∉ flat_map (λ b, [SerialPrintHex b; SerialPrint " "]) l.
Proof.
  induction l as [|b l IH]; simpl.
  - apply not_elem_of_nil.
  - rewrite !not_elem_of_cons. done.
Qed.

Lemma pin_not_in_state_line (d : list Z) (pin : Z) (level : bool) :
  DigitalWrite pin level ∉ state_line d.
Proof.
  unfold state_line. rewrite not_elem_of_cons, not_elem_of_app, not_elem_of_cons.
  split; [done|]. split; [apply pin_not_in_dump|].
  split; [done|apply not_elem_of_nil].
Qed.

Lemma pin_not_in_move_line (name : string) (dir pin : Z) (level : bool) :
  DigitalWrite pin level ∉ move_line name dir.
Proof.
  unfold move_line. rewrite !not_elem_of_cons.
  repeat (split; [done|]). apply not_elem_of_nil.
Qed.

Lemma relay_pulsed_outcome (data : list Z) :
  is_Some (index faceNames (face_nibble (decrypt data) - 1)) →
  (outcome data).1 = inr () ∧
  relay_pulsed (outcome data).2 = solved (decrypt data).
Proof.
  intros [name Hname]. unfold outcome. rewrite Hname.
  split; [done|]. unfold relay_pulsed. cbn [snd trace].
  unfold relay_line. destruct (solved (decrypt data)).
  - apply bool_decide_eq_true_2. rewrite !elem_of_app. right. right.
    unfold relay_pulse. apply list_elem_of_here.
  - apply bool_decide_eq_false_2. rewrite app_nil_r, elem_of_app.
    intros [H|H].
    + by apply pin_not_in_state_line in H.
    + by apply pin_not_in_move_line in H.
Qed.

(** ** Inverting one bit *)

Lemma flipped_byte (b k : Z) :
  is_byte b → 0 ≤ k < 8 →
  is_byte (Z.lxor b (Z.shiftl 1 k)) ∧ Z.lxor b (Z.shiftl 1 k) ≠ b.
Proof.
  intros Hb Hk.
  assert (Hall : forallb (λ x, forallb (λ j,
            let y := Z.lxor x (Z.shiftl 1 j) in
            (0 <=? y) && (y <? 256) && negb (y =? x))
            (seqZ 0 8)) (seqZ 0 256) = true) by (vm_compute; reflexivity).
  rewrite forallb_forall in Hall.
  specialize (Hall b). rewrite <- list_elem_of_In, elem_of_seqZ in Hall.
  specialize (Hall Hb). rewrite forallb_forall in Hall.
  specialize (Hall k). rewrite <- list_elem_of_In, elem_of_seqZ in Hall.
  specialize (Hall ltac:(lia)). cbv zeta in Hall.
  apply andb_true_iff in Hall as [Hall Hne].
  apply andb_true_iff in Hall as [Hlo Hhi].
  apply negb_true_iff, Z.eqb_neq in Hne.
  unfold is_byte. lia.
Qed.

Lemma wrap8_add_inj (x y k : Z) :
  is_byte x → is_byte y → wrap8 (x + k) = wrap8 (y + k) → x = y.
Proof.
  unfold is_byte, wrap8. intros Hx Hy H.
  pose proof (Z.div_mod (x + k) 256). pose proof (Z.div_mod (y + k) 256). lia.
Qed.

Section flip.
Variables (data : list Z) (i : nat) (k : Z).
Hypothesis Hbytes : bytes data.
Hypothesis Hlen : length data = 20%nat.
Hypothesis Hi : (i < 16)%nat.
Hypothesis Hk : 0 ≤ k < 8.

Lemma flip_bit_length : length (flip_bit data i k) = 20%nat.
Proof. unfold flip_bit. by rewrite length_insert. Qed.

Lemma flip_bit_bytes : bytes (flip_bit data i k).
Proof.
  unfold flip_bit. apply Forall_insert; [done|].
  apply flipped_byte; [by apply byte_at_byte|done].
Qed.

Lemma flip_bit_other (j : nat) :
  i ≠ j → byte_at (flip_bit data i k) j = byte_at data j.
Proof. intros Hij. unfold byte_at, flip_bit. by rewrite list_lookup_insert_ne. Qed.

Lemma flip_bit_same :
  byte_at (flip_bit data i k) i = Z.lxor (byte_at data i) (Z.shiftl 1 k).
Proof.
  unfold byte_at at 1. unfold flip_bit.
  by rewrite list_lookup_insert_eq by lia.
Qed.

Lemma flip_bit_isEncrypted : isEncrypted (flip_bit data i k) = isEncrypted data.
Proof. unfold isEncrypted. by rewrite flip_bit_other by lia. Qed.

Lemma flip_bit_offsets :
  offset1_of (flip_bit data i k) = offset1_of data ∧
  offset2_of (flip_bit data i k) = offset2_of data.
Proof. unfold offset1_of, offset2_of. by rewrite flip_bit_other by lia. Qed.

(** Every decoded byte but the [i]th is what it was; the [i]th is not. *)
Lemma flip_bit_decrypt_other (j : nat) :
  (j < 20)%nat → i ≠ j →
  decrypt (flip_bit data i k) !! j = decrypt data !! j.
Proof.
  intros Hj Hij. destruct flip_bit_offsets as [Ho1 Ho2].
  rewrite !decrypt_lookup by (rewrite ?flip_bit_length; lia).
  by rewrite flip_bit_isEncrypted, Ho1, Ho2, flip_bit_other.
Qed.

Lemma flip_bit_decrypt_same :
  decrypt (flip_bit data i k) !! i ≠ decrypt data !! i.
Proof.
  destruct flip_bit_offsets as [Ho1 Ho2].
  rewrite !decrypt_lookup by (rewrite ?flip_bit_length; lia).
  rewrite flip_bit_isEncrypted, Ho1, Ho2, flip_bit_same.
  destruct (flipped_byte (byte_at data i) k) as [Hb Hne];
    [by apply byte_at_byte|done|].
  destruct (isEncrypted data); intros [= Heq]; [|done].
  apply wrap8_add_inj in Heq; [done..|by apply byte_at_byte].
Qed.

Lemma flip_bit_face :
  face_nibble (decrypt (flip_bit data i k)) = face_nibble (decrypt data).
Proof.
  unfold face_nibble, byte_at. by rewrite flip_bit_decrypt_other by lia.
Qed.

Lemma flip_bit_unsolved :
  solved (decrypt data) = true → solved (decrypt (flip_bit data i k)) = false.
Proof.
  unfold solved. rewrite bool_decide_eq_true, bool_decide_eq_false.
  intros Hs Hs'. apply flip_bit_decrypt_same.
  rewrite <- (lookup_take_lt _ 16) by done.
  rewrite <- (lookup_take_lt (decrypt data) 16) by done.
  by rewrite Hs, Hs'.
Qed.
End flip.

(** The solved signal where the move byte names a face.  The comparison the
    callback makes on the decoded buffer is zero exactly when its bytes
    0-15 equal 12 34 56 78 33 33 33 33 12 34 56 78 9A BC 00 00; on every
    payload whose face nibble is in 1..6 the callback runs to its end and
    pulses the relay exactly then; the solved pattern received in the clear
    is reported solved; and inverting any one bit of bytes 0-15 of a
    payload reported solved yields one that is not. *)
Lemma solved_iff_pattern (data : list Z) :
  bytes data → length data = 20%nat →
  let d := pData (notify data).2 in
  (memcmp d solution 16 = Some 0 ↔ take 16 d = solution) ∧
  (∀ lastMoveFace : Z,
     getNibble d 32 = Some lastMoveFace → 1 ≤ lastMoveFace ≤ 6 →
     (notify data).1 = inr () ∧
     (relay_pulsed (notify data).2 = true ↔ take 16 d = solution) ∧
     (relay_pulsed (notify data).2 = true
      ↔ printed_bytes (trace (notify data).2) = solution) ∧
     (take 16 data = solution → data !! 18%nat ≠ Some 0xA7 →
        relay_pulsed (notify data).2 = true) ∧
     (relay_pulsed (notify data).2 = true →
        ∀ (i : nat) (k : Z), (i < 16)%nat → 0 ≤ k < 8 →
          (notify (flip_bit data i k)).1 = inr () ∧
          relay_pulsed (notify (flip_bit data i k)).2 = false)).
Proof.
  intros Hd Hlen d. subst d.
  rewrite notify_outcome by (done || lia). rewrite outcome_pData.
  pose proof (length_decrypt data) as Hl.
  split.
  { destruct (memcmp_spec 16 (decrypt data) solution) as (c & Hc & Hiff);
      [lia|simpl; lia|].
    change (take 16 solution) with solution in Hiff.
    rewrite Hc, <- Hiff. split; [by intros [= ->]|by intros ->]. }
  intros lastMoveFace Hget Hface.
  destruct (face_nibble_get (decrypt data) (bytes_decrypt data Hd) ltac:(lia))
    as [H32 _].
  rewrite H32 in Hget. injection Hget as <-.
  apply faceNames_index in Hface as Hname.
  destruct (relay_pulsed_outcome data Hname) as [Hok Hrelay].
  rewrite Hrelay, outcome_printed.
  assert (Hsolved : solved (decrypt data) = true ↔ take 16 (decrypt data) = solution)
    by (unfold solved; apply bool_decide_eq_true).
  split; [done|]. split; [done|]. split; [done|]. split.
  - intros Hs H18. apply Hsolved. by rewrite decrypt_unmarked by (done || lia).
  - intros Hs i k Hi Hk.
    rewrite notify_outcome
      by (by apply flip_bit_bytes || (rewrite flip_bit_length; [lia|done])).
    destruct (relay_pulsed_outcome (flip_bit data i k)) as [Hok' Hrelay'].
    { by rewrite flip_bit_face. }
    split; [done|]. rewrite Hrelay'. by apply flip_bit_unsolved.
Qed.

Lemma solved_iff_pattern_witness :
  let d := pData (notify plain_example).2 in
  (memcmp d solution 16 = Some 0 ↔ take 16 d = solution) ∧
  (notify plain_example).1 = inr () ∧
  relay_pulsed (notify plain_example).2 = true ∧
  ∀ (i : nat) (k : Z), (i < 16)%nat → 0 ≤ k < 8 →
    (notify (flip_bit plain_example i k)).1 = inr () ∧
    relay_pulsed (notify (flip_bit plain_example i k)).2 = false.
Proof.
  destruct (solved_iff_pattern plain_example) as [Hcmp Hrun];
    [solve_bytes | reflexivity |].
  split; [exact Hcmp|].
  destruct (Hrun 4) as (Hok & _ & _ & Hclear & Hflip); [reflexivity | lia |].
  split; [exact Hok|].
  assert (Hs : relay_pulsed (notify plain_example).2 = true)
    by (apply Hclear; [reflexivity | discriminate]).
  split; [exact Hs | exact (Hflip Hs)].
Defined.

(** ** Buffers longer than 20 bytes *)

Lemma byte_at_app (data extra : list Z) (i : nat) :
  (i < length data)%nat → byte_at (data ++ extra) i = byte_at data i.
Proof. intros Hi. unfold byte_at. by rewrite lookup_app_l. Qed.

Lemma decrypt_app (data extra : list Z) :
  length data = 20%nat → decrypt (data ++ extra) = decrypt data ++ extra.
Proof.
  intros Hlen. unfold decrypt, isEncrypted, offset1_of, offset2_of.
  rewrite !byte_at_app by lia.
  case_bool_decide; [|done].
  rewrite take_app_length', drop_app_length' by done.
  rewrite take_ge, drop_ge by lia. by rewrite !app_nil_r.
Qed.

Lemma outcome_app (data extra : list Z) :
  length data = 20%nat →
  outcome (data ++ extra)
  = ((outcome data).1,
     Machine (pData (outcome data).2 ++ extra)
       (keyReads (outcome data).2) (trace (outcome data).2)).
Proof.
  intros Hlen. pose proof (length_decrypt data) as Hl.
  unfold outcome. rewrite decrypt_app by done.
  assert (Hface : face_nibble (decrypt data ++ extra) = face_nibble (decrypt data))
    by (unfold face_nibble; by rewrite byte_at_app by lia).
  assert (Hdir : direction_nibble (decrypt data ++ extra)
                 = direction_nibble (decrypt data))
    by (unfold direction_nibble; by rewrite byte_at_app by lia).
  assert (Hstate : state_line (decrypt data ++ extra) = state_line (decrypt data))
    by (unfold state_line; by rewrite take_app_le by lia).
  assert (Hrelay : relay_line (decrypt data ++ extra) = relay_line (decrypt data))
    by (unfold relay_line, solved; by rewrite take_app_le by lia).
  assert (Hreads : reads_of (data ++ extra) = reads_of data).
  { unfold reads_of, isEncrypted, offset1_of, offset2_of.
    by rewrite !byte_at_app by lia. }
  rewrite Hface, Hdir, Hstate, Hrelay, Hreads.
  by destruct (index faceNames (face_nibble (decrypt data) - 1)).
Qed.

(** ** What the callback does not check *)

(** A face nibble outside 1..6 takes the index [lastMoveFace - 1] outside
    the six entries of [faceNames]: the state has been printed by then, the
    comparison with [solution] is never reached. *)
Lemma invalid_face_faults (data : list Z) :
  bytes data → length data = 20%nat →
  ¬ (1 ≤ face_nibble (decrypt data) ≤ 6) →
  notify data
  = (inl (OutOfBounds "faceNames" (face_nibble (decrypt data) - 1)),
     Machine (decrypt data) (reads_of data)
       (state_line (decrypt data) ++ [SerialPrint "Last Move: "])).
Proof.
  intros Hd Hlen Hface. rewrite notify_outcome by (done || lia).
  unfold outcome.
  destruct (index faceNames (face_nibble (decrypt data) - 1)) as [name|] eqn:E; [|done].
  exfalso. apply Hface, faceNames_index. by rewrite E.
Qed.

(** A buffer too short for the bytes the callback reads is read past its
    end. *)
Example short_buffer_read_past_end :
  (notify (take 18 plain_example)).1 = inl (OutOfBounds "pData" 18) ∧
  (notify (take 19 encrypted_example_1)).1 = inl (OutOfBounds "pData" 19).
Proof. split; reflexivity. Qed.

(** C6, as the specification has it: an input that is not 20 bytes long is
    rejected at once and nothing is decoded.  The callback does not look at
    [length]: a 21-byte and a 19-byte input are decoded to the end, state,
    move and solved signal included. *)
Lemma length_not_checked :
  let longer := plain_example ++ [0xFF] in
  let shorter := take 19 plain_example in
  length longer = 21%nat ∧
  notify longer
  = (inr (),
     Machine longer []
       (state_line solution ++ move_report Top Clockwise ++ relay_pulse)) ∧
  length shorter = 19%nat ∧
  notify shorter
  = (inr (),
     Machine shorter []
       (state_line solution ++ move_report Top Clockwise ++ relay_pulse)).
Proof. repeat split; reflexivity. Qed.

(** C6, amended: the callback never inspects the length it is given.  On
    every buffer of at least 20 bytes, and for every value of [length], it
    decodes the first 20 bytes exactly as it decodes them arriving alone,
    with the same state, move and solved signal, and leaves every byte
    after index 19 as it was. *)
Theorem length_ignored (data extra : list Z) (len : Z) (isNotify : bool) :
  bytes data → length data = 20%nat → bytes extra →
  notifyCallback len isNotify (Machine (data ++ extra) [] [])
  = ((notify data).1,
     Machine (pData (notify data).2 ++ extra)
       (keyReads (notify data).2) (trace (notify data).2)).
Proof.
  intros Hd Hlen He.
  rewrite notifyCallback_run_from
    by (by apply Forall_app || (rewrite length_app; lia)).
  rewrite notify_outcome by (done || lia).
  rewrite outcome_app by done. unfold after. done.
Qed.

Lemma length_ignored_witness :
  notifyCallback 21 true (Machine (plain_example ++ [0xFF]) [] [])
  = ((notify plain_example).1,
     Machine (pData (notify plain_example).2 ++ [0xFF])
       (keyReads (notify plain_example).2) (trace (notify plain_example).2)).
Proof.
  apply (length_ignored plain_example [0xFF] 21 true);
    [solve_bytes | reflexivity | solve_bytes].
Defined.

(** C7: a face nibble of 0 or above 6 should be reported as unrecognized,
    with the piece state and the solved flag still delivered and no access
    out of range.  The callback, on a solved cube with move byte 0x00,
    prints the state and then indexes [faceNames] at -1; with move byte
    0x70, at 6: both outside the table's six entries, and the solved signal
    is not reached. *)
Theorem face_nibble_unchecked :
  let zero := solution ++ [0x00; 0; 0; 0] in
  let seven := solution ++ [0x70; 0; 0; 0] in
  notify zero
  = (inl (OutOfBounds "faceNames" (-1)),
     Machine zero [] (state_line solution ++ [SerialPrint "Last Move: "])) ∧
  notify seven
  = (inl (OutOfBounds "faceNames" 6),
     Machine seven [] (state_line solution ++ [SerialPrint "Last Move: "])) ∧
  index faceNames (-1) = None ∧ index faceNames 6 = None ∧
  length faceNames = 6%nat ∧
  printed_bytes (trace (notify zero).2) = solution ∧
  relay_pulsed (notify zero).2 = false ∧
  relay_pulsed (notify seven).2 = false.
Proof. repeat split; reflexivity. Qed.

(** * Further properties of the sketch *)

(** ** [getNibble] and [getBit] on their own *)

Lemma index_is_Some {A} (val : list A) (i : Z) :
  is_Some (index val i) ↔ 0 ≤ i < Z.of_nat (length val).
Proof.
  unfold index. case_bool_decide as Hi.
  - rewrite lookup_lt_is_Some. lia.
  - split; [by intros [? ?]|lia].
Qed.

Lemma getNibble_is_Some (val : list Z) (i : Z) :
  is_Some (getNibble val i) ↔ is_Some (index val (Z.quot i 2)).
Proof.
  unfold getNibble. rewrite Z.lor_0_r.
  destruct (index val (Z.quot i 2)) as [b|]; case_bool_decide; simpl;
    split; intros [? ?]; by eauto.
Qed.

Lemma quot2_range (i n : Z) :
  0 ≤ n → 0 ≤ Z.quot i 2 < n ↔ 0 ≤ i < 2 * n ∨ (i = -1 ∧ 0 < n).
Proof. intros Hn. Z.to_euclidean_division_equations. lia. Qed.

(** [getNibble] yields a value exactly for the indices 0 .. 2 * length - 1
    and, the division truncating towards zero, for the index -1 of a buffer
    that is not empty; there it gives the high nibble of byte 0, since
    [-1 % 2] is not 1. *)
Theorem getNibble_domain (val : list Z) (i : Z) :
  (is_Some (getNibble val i)
   ↔ (0 ≤ i < 2 * Z.of_nat (length val)) ∨ (i = -1 ∧ val ≠ [])) ∧
  (∀ b : Z, val !! 0%nat = Some b → is_byte b →
     getNibble val (-1) = Some (b / 16)).
Proof.
  split.
  - rewrite getNibble_is_Some, index_is_Some.
    destruct val as [|x val]; simpl length.
    + split; [lia|]. intros [?|[_ ?]]; [lia|done].
    + rewrite quot2_range by lia. split; (intros [?|[? ?]]; [by left|right]);
        split; (done || lia).
  - intros b H0 Hb. unfold getNibble.
    change (bool_decide (Z.rem (-1) 2 = 1)) with false.
    change (Z.lor (Z.quot (-1) 2) 0) with (Z.of_nat 0).
    rewrite (index_Some _ _ _ H0). simpl. f_equal.
    unfold is_byte in Hb. rewrite Z.quot_div_nonneg by lia.
    apply wrap8_small. unfold is_byte. split; [apply Z.div_pos; lia|].
    apply Z.div_lt_upper_bound; lia.
Qed.

(** The two nibbles of a byte are in [0, 15] and put the byte together
    again: 16 times nibble [2j] plus nibble [2j + 1] is byte [j]. *)
Theorem getNibble_pair (val : list Z) (j : nat) :
  bytes val → (j < length val)%nat →
  ∃ hi lo : Z,
    getNibble val (2 * Z.of_nat j) = Some hi ∧
    getNibble val (2 * Z.of_nat j + 1) = Some lo ∧
    0 ≤ hi ≤ 15 ∧ 0 ≤ lo ≤ 15 ∧
    val !! j = Some (16 * hi + lo).
Proof.
  intros Hv Hj.
  pose proof (byte_at_lookup val j Hj) as Hl.
  pose proof (byte_at_byte val j Hv) as Hb.
  exists (byte_at val j / 16), (byte_at val j mod 16).
  split; [exact (getNibble_even _ _ _ Hl Hb)|].
  split; [exact (getNibble_odd _ _ _ Hl Hb)|].
  unfold is_byte in Hb.
  pose proof (Z.div_mod (byte_at val j) 16 ltac:(lia)) as Hdm.
  pose proof (Z.mod_pos_bound (byte_at val j) 16 ltac:(lia)) as Hm.
  split; [lia|]. split; [lia|]. rewrite Hl. f_equal. lia.
Qed.

Lemma getNibble_pair_witness :
  ∃ hi lo : Z,
    getNibble plain_example (2 * Z.of_nat 12) = Some hi ∧
    getNibble plain_example (2 * Z.of_nat 12 + 1) = Some lo ∧
    0 ≤ hi ≤ 15 ∧ 0 ≤ lo ≤ 15 ∧
    plain_example !! 12%nat = Some (16 * hi + lo).
Proof.
  apply (getNibble_pair plain_example 12); [solve_bytes | simpl; lia].
Defined.

Lemma getBit_at (val : list Z) (m : nat) (k b : Z) :
  val !! m = Some b → 0 ≤ k < 8 →
  getBit val (8 * Z.of_nat m + k) = Some (Z.land (Z.shiftr b (7 - k)) 1).
Proof.
  intros Hm Hk. unfold getBit.
  assert (Hq : Z.quot (8 * Z.of_nat m + k) 8 = Z.of_nat m).
  { rewrite Z.quot_div_nonneg by lia.
    symmetry. apply (Z.div_unique _ _ _ k); lia. }
  assert (Hr : Z.rem (8 * Z.of_nat m + k) 8 = k).
  { rewrite Z.rem_mod_nonneg by lia.
    symmetry. apply (Z.mod_unique _ _ (Z.of_nat m)); lia. }
  cbv zeta. rewrite Hq, Hr, Z.lor_0_r, (index_Some _ _ _ Hm). done.
Qed.

Lemma land_shiftr_1 (b s : Z) :
  0 ≤ s → Z.land (Z.shiftr b s) 1 = Z.b2z (Z.testbit b s).
Proof.
  intros Hs. change 1 with (Z.ones 1) at 1.
  rewrite Z.land_ones by lia. change (2 ^ 1) with 2.
  rewrite <- Z.bit0_mod, Z.shiftr_spec by lia. done.
Qed.

(** [getBit] numbers the bits of each byte from the most significant one:
    for an index inside the buffer it is bit [7 - i mod 8] of byte [i / 8],
    as 0 or 1. *)
Theorem getBit_msb_first (val : list Z) (i : Z) :
  0 ≤ i < 8 * Z.of_nat (length val) →
  ∃ b : Z,
    val !! Z.to_nat (i / 8) = Some b ∧
    getBit val i = Some (Z.b2z (Z.testbit b (7 - i mod 8))).
Proof.
  intros Hi.
  pose proof (Z.div_mod i 8 ltac:(lia)) as Hdm.
  pose proof (Z.mod_pos_bound i 8 ltac:(lia)) as Hm.
  assert (Hd : 0 ≤ i / 8 < Z.of_nat (length val)).
  { split; [apply Z.div_pos; lia|apply Z.div_lt_upper_bound; lia]. }
  destruct (lookup_lt_is_Some_2 val (Z.to_nat (i / 8)) ltac:(lia)) as [b Hb].
  exists b. split; [done|].
  replace i with (8 * Z.of_nat (Z.to_nat (i / 8)) + i mod 8) at 1 by lia.
  rewrite (getBit_at _ _ _ _ Hb) by lia.
  by rewrite land_shiftr_1 by lia.
Qed.

Lemma getBit_msb_first_witness :
  ∃ b : Z,
    plain_example !! Z.to_nat (11 / 8) = Some b ∧
    getBit plain_example 11 = Some (Z.b2z (Z.testbit b (7 - 11 mod 8))).
Proof. apply (getBit_msb_first plain_example 11). simpl. lia. Defined.

Lemma quot8_range (i n : Z) :
  0 ≤ n → 0 ≤ Z.quot i 8 < n ↔ 0 ≤ i < 8 * n ∨ (-8 < i < 0 ∧ 0 < n).
Proof. intros Hn. Z.to_euclidean_division_equations. lia. Qed.

(** [getBit] yields a value exactly for the indices 0 .. 8 * length - 1 and,
    the division truncating towards zero, for the indices -7 .. -1 of a
    buffer that is not empty; there the shift is 8 or more and the result
    is 0. *)
Theorem getBit_domain (val : list Z) (i : Z) :
  (is_Some (getBit val i)
   ↔ (0 ≤ i < 8 * Z.of_nat (length val)) ∨ (-8 < i < 0 ∧ val ≠ [])) ∧
  (∀ b : Z, -8 < i < 0 → val !! 0%nat = Some b → is_byte b →
     getBit val i = Some 0).
Proof.
  split.
  - assert (Hs : is_Some (getBit val i) ↔ is_Some (index val (Z.quot i 8))).
    { unfold getBit. cbv zeta. rewrite Z.lor_0_r.
      destruct (index val (Z.quot i 8)) as [b|]; simpl;
        split; intros [? ?]; by eauto. }
    rewrite Hs, index_is_Some.
    destruct val as [|x val]; simpl length.
    + split; [lia|]. intros [?|[_ ?]]; [lia|done].
    + rewrite quot8_range by lia. split; (intros [?|[? ?]]; [by left|right]);
        split; (done || lia).
  - intros b Hi H0 Hb. unfold getBit. cbv zeta.
    assert (Hq : Z.quot i 8 = Z.of_nat 0)
      by (Z.to_euclidean_division_equations; lia).
    assert (Hr : Z.rem i 8 = i) by (Z.to_euclidean_division_equations; lia).
    rewrite Hq, Hr, Z.lor_0_r, (index_Some _ _ _ H0). simpl. f_equal.
    unfold is_byte in Hb.
    rewrite Z.shiftr_div_pow2 by lia.
    assert (2 ^ 8 ≤ 2 ^ (7 - i)) by (apply Z.pow_le_mono_r; lia).
    rewrite Z.div_small by lia. done.
Qed.

Lemma nibbles_of_bits (b : Z) :
  is_byte b →
  b / 16 = 8 * Z.land (Z.shiftr b 7) 1 + 4 * Z.land (Z.shiftr b 6) 1
           + 2 * Z.land (Z.shiftr b 5) 1 + Z.land (Z.shiftr b 4) 1 ∧
  b mod 16 = 8 * Z.land (Z.shiftr b 3) 1 + 4 * Z.land (Z.shiftr b 2) 1
             + 2 * Z.land (Z.shiftr b 1) 1 + Z.land (Z.shiftr b 0) 1.
Proof.
  intros Hb.
  assert (Hall : forallb (λ x,
            (x / 16 =? 8 * Z.land (Z.shiftr x 7) 1 + 4 * Z.land (Z.shiftr x 6) 1
                       + 2 * Z.land (Z.shiftr x 5) 1 + Z.land (Z.shiftr x 4) 1)
            && (x mod 16 =? 8 * Z.land (Z.shiftr x 3) 1 + 4 * Z.land (Z.shiftr x 2) 1
                            + 2 * Z.land (Z.shiftr x 1) 1 + Z.land (Z.shiftr x 0) 1))
            (seqZ 0 256) = true) by (vm_compute; reflexivity).
  rewrite forallb_forall in Hall.
  specialize (Hall b). rewrite <- list_elem_of_In, elem_of_seqZ in Hall.
  specialize (Hall Hb). apply andb_true_iff in Hall as [H1 H2].
  apply Z.eqb_eq in H1, H2. done.
Qed.

(** The two helpers agree: nibble [j] is made of the bits [4j .. 4j + 3],
    the first of them the most significant. *)
Theorem getNibble_of_getBit (val : list Z) (j : Z) :
  bytes val → 0 ≤ j < 2 * Z.of_nat (length val) →
  ∃ n b0 b1 b2 b3 : Z,
    getNibble val j = Some n ∧
    getBit val (4 * j) = Some b0 ∧ getBit val (4 * j + 1) = Some b1 ∧
    getBit val (4 * j + 2) = Some b2 ∧ getBit val (4 * j + 3) = Some b3 ∧
    n = 8 * b0 + 4 * b1 + 2 * b2 + b3.
Proof.
  intros Hv Hj.
  pose proof (Z.div_mod j 2 ltac:(lia)) as Hdm.
  pose proof (Z.mod_pos_bound j 2 ltac:(lia)) as Hm.
  assert (Hd : 0 ≤ j / 2 < Z.of_nat (length val)).
  { split; [apply Z.div_pos; lia|apply Z.div_lt_upper_bound; lia]. }
  set (m := Z.to_nat (j / 2)).
  pose proof (byte_at_lookup val m ltac:(lia)) as Hl.
  pose proof (byte_at_byte val m Hv) as Hb.
  destruct (nibbles_of_bits _ Hb) as [Hhi Hlo].
  destruct (decide (j mod 2 = 0)) as [Hr|Hr].
  - exists (byte_at val m / 16). do 4 eexists.
    replace j with (2 * Z.of_nat m) at 1 by lia.
    split; [exact (getNibble_even _ _ _ Hl Hb)|].
    replace (4 * j) with (8 * Z.of_nat m + 0) at 1 by lia.
    replace (4 * j + 1) with (8 * Z.of_nat m + 1) by lia.
    replace (4 * j + 2) with (8 * Z.of_nat m + 2) by lia.
    replace (4 * j + 3) with (8 * Z.of_nat m + 3) by lia.
    rewrite !(getBit_at _ _ _ _ Hl) by lia.
    repeat (split; [reflexivity|]). exact Hhi.
  - exists (byte_at val m mod 16). do 4 eexists.
    replace j with (2 * Z.of_nat m + 1) at 1 by lia.
    split; [exact (getNibble_odd _ _ _ Hl Hb)|].
    replace (4 * j) with (8 * Z.of_nat m + 4) by lia.
    replace (8 * Z.of_nat m + 4 + 1) with (8 * Z.of_nat m + 5) by lia.
    replace (8 * Z.of_nat m + 4 + 2) with (8 * Z.of_nat m + 6) by lia.
    replace (8 * Z.of_nat m + 4 + 3) with (8 * Z.of_nat m + 7) by lia.
    rewrite !(getBit_at _ _ _ _ Hl) by lia.
    repeat (split; [reflexivity|]). exact Hlo.
Qed.

Lemma getNibble_of_getBit_witness :
  ∃ n b0 b1 b2 b3 : Z,
    getNibble encrypted_example_1 39 = Some n ∧
    getBit encrypted_example_1 (4 * 39) = Some b0 ∧
    getBit encrypted_example_1 (4 * 39 + 1) = Some b1 ∧
    getBit encrypted_example_1 (4 * 39 + 2) = Some b2 ∧
    getBit encrypted_example_1 (4 * 39 + 3) = Some b3 ∧
    n = 8 * b0 + 4 * b1 + 2 * b2 + b3.
Proof.
  apply (getNibble_of_getBit encrypted_example_1 39); [solve_bytes | simpl; lia].
Defined.

Lemma getNibble_domain_witness :
  getNibble plain_example (-1) = Some (0x12 / 16).
Proof.
  apply (proj2 (getNibble_domain plain_example (-1)) 0x12);
    [reflexivity | unfold is_byte; lia].
Defined.

Lemma getBit_domain_witness : getBit plain_example (-3) = Some 0.
Proof.
  apply (proj2 (getBit_domain plain_example (-3)) 0x12);
    [lia | reflexivity | unfold is_byte; lia].
Defined.

(** ** The callback on buffers of any length *)

Lemma load_past_end (data : list Z) (i : nat) (kr : list Z) (tr : list event) :
  (length data ≤ i)%nat →
  load_pData (Z.of_nat i) (Machine data kr tr)
  = (inl (OutOfBounds "pData" (Z.of_nat i)), Machine data kr tr).
Proof.
  intros Hlen. unfold load_pData, index. cbn [pData].
  rewrite bool_decide_eq_true_2 by lia.
  rewrite Nat2Z.id, lookup_ge_None_2 by lia. done.
Qed.

Lemma offsets_past_end (data : list Z) (kr : list Z) (tr : list event) :
  (length data ≤ 19)%nat →
  decryptData (Machine data kr tr)
  = (inl (OutOfBounds "pData" 19), Machine data kr tr).
Proof.
  intros Hlen. unfold decryptData. apply bind_inl.
  unfold getNibbleM, getNibble. cbn [pData].
  change (bool_decide (Z.rem 38 2 = 1)) with false.
  change (Z.lor (Z.quot 38 2) 0) with 19.
  unfold index. rewrite bool_decide_eq_true_2 by lia.
  rewrite lookup_ge_None_2 by (change (Z.to_nat 19) with 19%nat; lia).
  done.
Qed.

(** A buffer of 18 bytes or fewer, the empty one included: the first thing
    the callback does is read [pData[18]], past the end; nothing has been
    printed or written by then. *)
Theorem short_buffer_faults_first (data : list Z) (len : Z) (isNotify : bool)
    (kr : list Z) (tr : list event) :
  (length data ≤ 18)%nat →
  notifyCallback len isNotify (Machine data kr tr)
  = (inl (OutOfBounds "pData" 18), Machine data kr tr).
Proof.
  intros Hlen. unfold notifyCallback. apply bind_inl.
  by apply (load_past_end data 18).
Qed.

Lemma short_buffer_faults_first_witness :
  notifyCallback 0 true (Machine [] [] [])
  = (inl (OutOfBounds "pData" 18), Machine [] [] []).
Proof. apply (short_buffer_faults_first [] 0 true [] []). simpl. lia. Defined.

(** A buffer of 19 bytes with the marker 0xA7 in byte 18: the callback goes
    on to read the offsets from [pData[19]], past the end, before it has
    changed or printed anything. *)
Theorem marked_19_bytes_faults (data : list Z) :
  length data = 19%nat → data !! 18%nat = Some 0xA7 →
  notify data = (inl (OutOfBounds "pData" 19), Machine data [] []).
Proof.
  intros Hlen H18. unfold notify, notifyCallback.
  erewrite bind_inr; last first.
  { unfold load_pData. cbn [pData]. change 18 with (Z.of_nat 18).
    rewrite (index_Some _ _ _ H18). simpl. reflexivity. }
  rewrite bool_decide_eq_true_2 by done.
  apply bind_inl. apply offsets_past_end. lia.
Qed.

Lemma marked_19_bytes_faults_witness :
  notify (take 19 encrypted_example_2)
  = (inl (OutOfBounds "pData" 19), Machine (take 19 encrypted_example_2) [] []).
Proof.
  apply (marked_19_bytes_faults (take 19 encrypted_example_2)); reflexivity.
Defined.

(** Without the marker, 19 bytes are enough: byte 19 is not read. *)
Lemma unmarked_run (data : list Z) :
  bytes data → (19 ≤ length data)%nat → data !! 18%nat ≠ Some 0xA7 →
  notify data = outcome data.
Proof.
  intros Hd Hlen H18. unfold notify, notifyCallback.
  pose proof (byte_at_lookup data 18 ltac:(lia)) as Hb18.
  erewrite bind_inr; last first.
  { unfold load_pData. cbn [pData]. change 18 with (Z.of_nat 18).
    rewrite (index_Some _ _ _ Hb18). simpl. reflexivity. }
  rewrite bool_decide_eq_false_2 by congruence.
  erewrite bind_inr; last by (unfold ret; reflexivity).
  erewrite bind_inr; last by (apply printState_run; lia).
  unfold outcome.
  assert (Hreads : reads_of data = []).
  { unfold reads_of. destruct (isEncrypted data) eqn:E; [|done].
    by apply isEncrypted_true in E; [|lia]. }
  rewrite decrypt_unmarked, Hreads by (done || lia).
  pose proof (printMove_run data [] ([] ++ state_line data) Hd ltac:(lia)) as Hmove.
  destruct (index faceNames (face_nibble data - 1)) as [name|].
  - erewrite bind_inr; last by apply Hmove.
    rewrite checkSolved_run by lia.
    cbn [fst snd pData keyReads trace]. by rewrite <- !app_assoc.
  - erewrite bind_inl; last by apply Hmove. done.
Qed.

(** Every byte buffer falls under one of three cases. *)
Lemma notify_cases (data : list Z) :
  bytes data →
  notify data = (inl (OutOfBounds "pData" 18), Machine data [] []) ∨
  notify data = (inl (OutOfBounds "pData" 19), Machine data [] []) ∨
  ((19 ≤ length data)%nat ∧ notify data = outcome data).
Proof.
  intros Hd.
  destruct (decide (length data ≤ 18)%nat) as [Hs|Hs].
  { left. unfold notify, notifyCallback. apply bind_inl.
    by apply (load_past_end data 18). }
  destruct (decide (20 ≤ length data)%nat) as [Hl|Hl].
  { right. right. split; [lia|]. by apply notify_outcome. }
  destruct (decide (data !! 18%nat = Some 0xA7)) as [Hm|Hm].
  - right. left. unfold notify, notifyCallback.
    erewrite bind_inr; last first.
    { unfold load_pData. cbn [pData]. change 18 with (Z.of_nat 18).
      rewrite (index_Some _ _ _ Hm). simpl. reflexivity. }
    rewrite bool_decide_eq_true_2 by done.
    apply bind_inl. apply offsets_past_end. lia.
  - right. right. split; [lia|]. apply unmarked_run; [done|lia|done].
Qed.

(** Whatever the buffer, the callback leaves in it as many bytes as it
    found, each still a byte. *)
Theorem buffer_stays_bytes (data : list Z) :
  bytes data →
  bytes (pData (notify data).2) ∧
  length (pData (notify data).2) = length data.
Proof.
  intros Hd.
  destruct (notify_cases data Hd) as [-> | [-> | [_ ->]]]; [done..|].
  rewrite outcome_pData. split; [by apply bytes_decrypt|apply length_decrypt].
Qed.

Lemma buffer_stays_bytes_witness :
  bytes (pData (notify encrypted_example_1).2) ∧
  length (pData (notify encrypted_example_1).2) = length encrypted_example_1.
Proof. apply (buffer_stays_bytes encrypted_example_1). solve_bytes. Defined.

Lemma pin_writes_dump (l : list Z) :
  pin_writes (flat_map (λ b, [SerialPrintHex b; SerialPrint " "]) l) = [].
Proof. induction l as [|b l IH]; [done|]. simpl. exact IH. Qed.

Lemma pin_writes_app (t1 t2 : list event) :
  pin_writes (t1 ++ t2) = pin_writes t1 ++ pin_writes t2.
Proof. apply omap_app. Qed.

Lemma pin_writes_state_line (d : list Z) : pin_writes (state_line d) = [].
Proof.
  unfold state_line.
  change (SerialPrint "Current State: "
          :: flat_map (λ b, [SerialPrintHex b; SerialPrint " "]) (take 16 d)
          ++ [SerialPrintln ""])
    with ([SerialPrint "Current State: "]
          ++ flat_map (λ b, [SerialPrintHex b; SerialPrint " "]) (take 16 d)
          ++ [SerialPrintln ""]).
  by rewrite !pin_writes_app, pin_writes_dump.
Qed.

(** The only pin the callback writes is the relay pin, and it never leaves
    it high: the pin writes of a run are the pair high, low when the relay
    was pulsed and none at all otherwise, for a buffer of any length. *)
Theorem relay_never_left_high (data : list Z) :
  bytes data →
  pin_writes (trace (notify data).2)
  = if relay_pulsed (notify data).2
    then [(relayPin, HIGH); (relayPin, LOW)] else [].
Proof.
  intros Hd.
  destruct (notify_cases data Hd) as [-> | [-> | [_ ->]]]; [done..|].
  unfold outcome.
  destruct (index faceNames (face_nibble (decrypt data) - 1)) as [name|] eqn:E.
  - destruct (relay_pulsed_outcome data) as [_ Hrelay]; [by rewrite E|].
    unfold outcome in Hrelay. rewrite E in Hrelay. rewrite Hrelay.
    cbn [snd trace]. rewrite !pin_writes_app, pin_writes_state_line.
    unfold relay_line. by destruct (solved (decrypt data)).
  - cbn [snd trace]. rewrite pin_writes_app, pin_writes_state_line.
    unfold relay_pulsed. cbn [trace].
    rewrite bool_decide_eq_false_2; [done|].
    rewrite elem_of_app, list_elem_of_singleton.
    intros [H|H]; [by apply pin_not_in_state_line in H|done].
Qed.

Lemma relay_never_left_high_witness :
  pin_writes (trace (notify plain_example).2)
  = if relay_pulsed (notify plain_example).2
    then [(relayPin, HIGH); (relayPin, LOW)] else [].
Proof. apply (relay_never_left_high plain_example). solve_bytes. Defined.

(** On a buffer of 20 bytes or more nothing but the face table can be
    indexed out of range: the callback runs to its end exactly when the face
    nibble of the decoded buffer is in 1..6, and otherwise stops at
    [faceNames[-1]] or at one of [faceNames[6]] .. [faceNames[14]]. *)
Theorem only_face_lookup_can_fault (data : list Z) :
  bytes data → (20 ≤ length data)%nat →
  ((notify data).1 = inr ()
   ↔ ∃ lastMoveFace : Z,
       getNibble (pData (notify data).2) 32 = Some lastMoveFace
       ∧ 1 ≤ lastMoveFace ≤ 6) ∧
  (∀ f : fault, (notify data).1 = inl f →
     ∃ i : Z, f = OutOfBounds "faceNames" i ∧ (i = -1 ∨ 6 ≤ i ≤ 14)).
Proof.
  intros Hd Hlen. rewrite notify_outcome by done. rewrite outcome_pData.
  pose proof (length_decrypt data) as Hl.
  pose proof (bytes_decrypt data Hd) as Hb.
  destruct (face_nibble_get (decrypt data) Hb ltac:(lia)) as [H32 _].
  pose proof (faceNames_index (face_nibble (decrypt data))) as Hidx.
  assert (Hrange : 0 ≤ face_nibble (decrypt data) ≤ 15).
  { pose proof (byte_at_byte (decrypt data) 16 Hb) as H16.
    unfold face_nibble, is_byte in *. split; [apply Z.div_pos; lia|].
    apply Z.lt_succ_r. apply Z.div_lt_upper_bound; lia. }
  rewrite H32. unfold outcome.
  destruct (index faceNames (face_nibble (decrypt data) - 1)) as [name|] eqn:E;
    cbn [fst].
  - split.
    + split; [|done]. intros _. eexists. split; [done|]. apply Hidx. by eexists.
    + by intros f [=].
  - split.
    + split; [done|]. intros (f & [= <-] & Hf).
      apply Hidx in Hf as [? ?]. done.
    + intros f [= <-]. eexists. split; [done|].
      assert (¬ (1 ≤ face_nibble (decrypt data) ≤ 6)) as Hn.
      { intros Hf. apply Hidx in Hf as [? ?]. done. }
      lia.
Qed.

Lemma only_face_lookup_can_fault_witness :
  ((notify plain_example).1 = inr ()
   ↔ ∃ lastMoveFace : Z,
       getNibble (pData (notify plain_example).2) 32 = Some lastMoveFace
       ∧ 1 ≤ lastMoveFace ≤ 6) ∧
  (∀ f : fault, (notify plain_example).1 = inl f →
     ∃ i : Z, f = OutOfBounds "faceNames" i ∧ (i = -1 ∨ 6 ≤ i ≤ 14)).
Proof.
  apply (only_face_lookup_can_fault plain_example); [solve_bytes | simpl; lia].
Defined.

Lemma decrypted_marker_gone (data : list Z) :
  bytes data → (20 ≤ length data)%nat → decrypt data !! 18%nat ≠ Some 0xA7.
Proof.
  intros Hd Hlen. rewrite decrypt_lookup by lia.
  unfold isEncrypted. case_bool_decide as Hm; intros [= Heq]; [|done].
  rewrite Hm in Heq. revert Heq.
  apply key_sum_18; [by apply offset1_range|apply offset2_range].
Qed.

(** The callback decrypts in place, and what it leaves no longer carries the
    marker: called again on the buffer it has left, it takes it as sent in
    the clear, reads no key, leaves it as it is, and prints and signals
    what it did the first time. *)
Theorem second_call_decrypts_nothing (data : list Z) :
  bytes data → (20 ≤ length data)%nat →
  notify (pData (notify data).2)
  = ((notify data).1,
     Machine (pData (notify data).2) [] (trace (notify data).2)).
Proof.
  intros Hd Hlen. rewrite (notify_outcome data) by done. rewrite outcome_pData.
  pose proof (length_decrypt data) as Hl.
  pose proof (bytes_decrypt data Hd) as Hb.
  pose proof (decrypted_marker_gone data Hd Hlen) as H18.
  rewrite unmarked_run by (done || lia).
  unfold outcome at 1.
  assert (Hreads : reads_of (decrypt data) = []).
  { unfold reads_of. destruct (isEncrypted (decrypt data)) eqn:E; [|done].
    by apply isEncrypted_true in E; [|lia]. }
  rewrite (decrypt_unmarked (decrypt data)), Hreads by (done || lia).
  unfold outcome.
  by destruct (index faceNames (face_nibble (decrypt data) - 1)).
Qed.

Lemma second_call_decrypts_nothing_witness :
  notify (pData (notify encrypted_example_1).2)
  = ((notify encrypted_example_1).1,
     Machine (pData (notify encrypted_example_1).2) []
       (trace (notify encrypted_example_1).2)).
Proof.
  apply (second_call_decrypts_nothing encrypted_example_1);
    [solve_bytes | simpl; lia].
Defined.

Lemma byte_at_insert_ne (data : list Z) (i j : nat) (x : Z) :
  i ≠ j → byte_at (<[i:=x]> data) j = byte_at data j.
Proof. intros Hij. unfold byte_at. by rewrite list_lookup_insert_ne. Qed.

Lemma decrypt_insert_other (data : list Z) (i j : nat) (x : Z) :
  (20 ≤ length data)%nat → i ≠ 18%nat → i ≠ 19%nat → i ≠ j →
  decrypt (<[i:=x]> data) !! j = decrypt data !! j.
Proof.
  intros Hlen H18 H19 Hij.
  destruct (decide (j < 20)%nat) as [Hj|Hj].
  - rewrite !decrypt_lookup by (rewrite ?length_insert; lia).
    unfold isEncrypted, offset1_of, offset2_of.
    by rewrite !byte_at_insert_ne by done.
  - rewrite !decrypt_tail by lia. by rewrite list_lookup_insert_ne.
Qed.

(** Byte 17 of the payload is never looked at: with any other byte in its
    place the callback prints the same, signals the same, reads the key at
    the same indices and ends the same way; the buffers it leaves agree
    everywhere but at index 17. *)
Theorem byte_17_ignored (data : list Z) (x : Z) :
  bytes data → (20 ≤ length data)%nat → is_byte x →
  (notify (<[17%nat:=x]> data)).1 = (notify data).1 ∧
  trace (notify (<[17%nat:=x]> data)).2 = trace (notify data).2 ∧
  keyReads (notify (<[17%nat:=x]> data)).2 = keyReads (notify data).2 ∧
  ∀ j : nat, j ≠ 17%nat →
    pData (notify (<[17%nat:=x]> data)).2 !! j = pData (notify data).2 !! j.
Proof.
  intros Hd Hlen Hx.
  assert (Hd' : bytes (<[17%nat:=x]> data)) by (by apply Forall_insert).
  rewrite !notify_outcome by (rewrite ?length_insert; done).
  assert (Hother : ∀ j : nat, j ≠ 17%nat →
            decrypt (<[17%nat:=x]> data) !! j = decrypt data !! j).
  { intros j Hj. apply decrypt_insert_other; (done || lia). }
  assert (Htake : take 16 (decrypt (<[17%nat:=x]> data)) = take 16 (decrypt data)).
  { apply list_eq. intros j. destruct (decide (j < 16)%nat) as [Hj|Hj].
    - rewrite !lookup_take_lt by done. apply Hother. lia.
    - by rewrite !lookup_take_ge by lia. }
  assert (H16 : byte_at (decrypt (<[17%nat:=x]> data)) 16 = byte_at (decrypt data) 16).
  { unfold byte_at. by rewrite Hother by lia. }
  assert (Hreads : reads_of (<[17%nat:=x]> data) = reads_of data).
  { unfold reads_of, isEncrypted, offset1_of, offset2_of.
    by rewrite !byte_at_insert_ne by lia. }
  rewrite !outcome_pData. split; [|split; [|split; [|done]]];
    unfold outcome, face_nibble, direction_nibble, state_line, relay_line, solved;
    rewrite H16, Htake, Hreads;
    by destruct (index faceNames (byte_at (decrypt data) 16 / 16 - 1)).
Qed.

Lemma byte_17_ignored_witness :
  (notify (<[17%nat:=0]> encrypted_example_2)).1 = (notify encrypted_example_2).1 ∧
  trace (notify (<[17%nat:=0]> encrypted_example_2)).2
  = trace (notify encrypted_example_2).2 ∧
  keyReads (notify (<[17%nat:=0]> encrypted_example_2)).2
  = keyReads (notify encrypted_example_2).2 ∧
  ∀ j : nat, j ≠ 17%nat →
    pData (notify (<[17%nat:=0]> encrypted_example_2)).2 !! j
    = pData (notify encrypted_example_2).2 !! j.
Proof.
  apply (byte_17_ignored encrypted_example_2 0);
    [solve_bytes | simpl; lia | unfold is_byte; lia].
Defined.

(** Sent in the clear, a notification needs 19 bytes only: byte 19 is not
    read.  The buffer is left as it was, the key is not read, bytes 0-15 are
    printed, and the callback runs to its end exactly when the high nibble
    of byte 16 is in 1..6. *)
Theorem unmarked_needs_19_bytes (data : list Z) :
  bytes data → (19 ≤ length data)%nat → data !! 18%nat ≠ Some 0xA7 →
  pData (notify data).2 = data ∧
  keyReads (notify data).2 = [] ∧
  printed_bytes (trace (notify data).2) = take 16 data ∧
  ((notify data).1 = inr ()
   ↔ ∃ lastMoveFace : Z,
       getNibble data 32 = Some lastMoveFace ∧ 1 ≤ lastMoveFace ≤ 6).
Proof.
  intros Hd Hlen H18. rewrite unmarked_run by done.
  rewrite outcome_pData, outcome_keyReads, outcome_printed.
  rewrite decrypt_unmarked by (done || lia).
  assert (Hreads : reads_of data = []).
  { unfold reads_of. destruct (isEncrypted data) eqn:E; [|done].
    by apply isEncrypted_true in E; [|lia]. }
  split; [done|]. split; [done|]. split; [done|].
  destruct (face_nibble_get data Hd ltac:(lia)) as [H32 _].
  pose proof (faceNames_index (face_nibble data)) as Hidx.
  rewrite H32. unfold outcome. rewrite decrypt_unmarked by (done || lia).
  destruct (index faceNames (face_nibble data - 1)) as [name|] eqn:E; cbn [fst].
  - split; [|done]. intros _. eexists. split; [done|]. apply Hidx. by eexists.
  - split; [done|]. intros (f & [= <-] & Hf). apply Hidx in Hf as [? ?]. done.
Qed.

Lemma unmarked_needs_19_bytes_witness :
  pData (notify (take 19 plain_example)).2 = take 19 plain_example ∧
  keyReads (notify (take 19 plain_example)).2 = [] ∧
  printed_bytes (trace (notify (take 19 plain_example)).2)
  = take 16 (take 19 plain_example) ∧
  ((notify (take 19 plain_example)).1 = inr ()
   ↔ ∃ lastMoveFace : Z,
       getNibble (take 19 plain_example) 32 = Some lastMoveFace
       ∧ 1 ≤ lastMoveFace ≤ 6).
Proof.
  apply (unmarked_needs_19_bytes (take 19 plain_example));
    [solve_bytes | simpl; lia | discriminate].
Defined.

(** ** Scanning, connecting and the main loop *)

Lemma uint8_bytes (payload : list Byte.byte) : bytes (map uint8 payload).
Proof.
  apply Forall_forall. intros z Hz.
  apply list_elem_of_fmap in Hz as (b & -> & _).
  unfold is_byte, uint8. pose proof (Byte.to_N_bounded b). lia.
Qed.

(** Every pin write of the callback is a write of the relay pin. *)
Lemma notify_writes_relay_only (data : list Z) (pin : Z) (level : bool) :
  bytes data → DigitalWrite pin level ∈ trace (notify data).2 → pin = relayPin.
Proof.
  intros Hd.
  destruct (notify_cases data Hd) as [-> | [-> | [_ ->]]];
    [intros H; by apply elem_of_nil in H..|].
  unfold outcome.
  destruct (index faceNames (face_nibble (decrypt data) - 1)) as [name|];
    cbn [snd trace]; rewrite !elem_of_app.
  - intros [H|[H|H]].
    + by apply pin_not_in_state_line in H.
    + by apply pin_not_in_move_line in H.
    + unfold relay_line in H. destruct (solved (decrypt data)).
      * unfold relay_pulse in H.
        repeat (apply elem_of_cons in H as [H|H]; [by simplify_eq|]).
        by apply elem_of_nil in H.
      * by apply elem_of_nil in H.
  - intros [H|H]; [by apply pin_not_in_state_line in H|].
    apply elem_of_cons in H as [H|H]; [done|by apply elem_of_nil in H].
Qed.

Lemma io_of_event_no_scan (t : list event) (s : Z) :
  ScanStart s ∉ map io_of_event t.
Proof. intros H. apply list_elem_of_fmap in H as (e & He & _). by destruct e. Qed.

Lemma io_of_event_no_connect (t : list event) (a : BLEAddress) :
  Connect a ∉ map io_of_event t.
Proof. intros H. apply list_elem_of_fmap in H as (e & He & _). by destruct e. Qed.

Lemma led_after_io_of_event (LED_BUILTIN : Z) (t : list event) : ∀ l : bool,
  (∀ pin level, DigitalWrite pin level ∈ t → pin ≠ LED_BUILTIN) →
  led_after LED_BUILTIN l (map io_of_event t) = l.
Proof.
  induction t as [|e t IH]; intros l Hpins; [done|].
  unfold led_after in *. cbn [map foldl].
  assert (Hrest : ∀ pin level, DigitalWrite pin level ∈ t → pin ≠ LED_BUILTIN).
  { intros pin level H. apply (Hpins pin level). by apply list_elem_of_further. }
  destruct e as [s|b|s|pin level|ms]; cbn [io_of_event]; try by apply IH.
  rewrite bool_decide_eq_false_2; [by apply IH|].
  apply (Hpins pin level), list_elem_of_here.
Qed.

Section sketch_properties.

Variable LED_BUILTIN : Z.

Lemma connectToServer_Some (env : ble) (g : globals) (a : BLEAddress) :
  myDevice g = Some a →
  ∃ r g' out,
    connectToServer env g = Some (r, g', out) ∧
    deviceFound g' = deviceFound g ∧ connected g' = connected g ∧
    myDevice g' = myDevice g ∧
    (∀ s, ScanStart s ∉ out) ∧
    (∀ b, Connect b ∈ out → b = a) ∧
    led_after LED_BUILTIN (connected g) out = connected g.
Proof.
  intros Ha. unfold connectToServer. rewrite Ha. cbn [mbind option_bind].
  destruct env as [[] [] []]; cbn [has_service has_characteristic can_notify negb];
    do 3 eexists; (split; [reflexivity|]); cbn [deviceFound connected myDevice];
    (split; [done|]); (split; [done|]); (split; [done|]);
    (split; [intros s H; not_among H|]);
    (split; [intros b H; not_among H|reflexivity]).
Qed.

(** One entry: it never meets a null [myDevice], and it keeps what the
    properties below are read from. *)
Lemma step_inv (c : call) (g : globals) :
  device_known g →
  ∃ e g1 out1,
    step LED_BUILTIN c g = (e, g1, out1) ∧ e ≠ NullPointer ∧ device_known g1 ∧
    (deviceFound g1 = true ↔ deviceFound g = true ∨ c = OnResult pServerAddress) ∧
    (deviceFound g = true → ∀ s, ScanStart s ∉ out1) ∧
    (∀ b, Connect b ∈ out1 → b = pServerAddress) ∧
    (LED_BUILTIN ≠ relayPin →
       led_after LED_BUILTIN (connected g) out1 = connected g1).
Proof.
  unfold device_known. intros Hg.
  destruct c as [|a| | |payload|env]; cbn [step].
  - do 3 eexists. unfold setup. split; [reflexivity|]. split; [done|].
    split; [done|]. split; [split; [by left|by intros [?|?]]|].
    split; [intros _ s H; not_among H|].
    split; [intros b H; not_among H|].
    intros Hled. unfold led_after. cbn [foldl].
    by rewrite bool_decide_eq_false_2 by congruence.
  - unfold onResult. case_bool_decide as Ha.
    + do 3 eexists. split; [reflexivity|]. split; [done|].
      cbn [deviceFound myDevice connected].
      split; [by rewrite Ha|]. split; [split; [by right; rewrite Ha|done]|].
      split; [intros _ s H; not_among H|].
      split; [intros b H; not_among H|done].
    + do 3 eexists. split; [reflexivity|]. split; [done|]. split; [done|].
      split; [split; [by left|by intros [?|[= ?]]]|].
      split; [intros _ s H; not_among H|].
      split; [intros b H; not_among H|done].
  - do 3 eexists. unfold onConnect. split; [reflexivity|]. split; [done|].
    cbn [deviceFound myDevice connected].
    split; [done|]. split; [split; [by left|by intros [?|?]]|].
    split; [intros _ s H; not_among H|].
    split; [intros b H; not_among H|].
    intros _. unfold led_after. cbn [foldl]. by rewrite bool_decide_eq_true_2.
  - do 3 eexists. unfold onDisconnect. split; [reflexivity|]. split; [done|].
    cbn [deviceFound myDevice connected].
    split; [done|]. split; [split; [by left|by intros [?|?]]|].
    split; [intros _ s H; not_among H|].
    split; [intros b H; not_among H|].
    intros _. unfold led_after. cbn [foldl]. by rewrite bool_decide_eq_true_2.
  - do 3 eexists. split; [reflexivity|].
    split; [by destruct ((notify (map uint8 payload)).1)|].
    split; [done|]. split; [split; [by left|by intros [?|?]]|].
    split; [intros _ s H; by apply io_of_event_no_scan in H|].
    split; [intros b H; by apply io_of_event_no_connect in H|].
    intros Hled. apply led_after_io_of_event. intros pin level H.
    apply notify_writes_relay_only in H; [congruence|apply uint8_bytes].
  - unfold loop. destruct (deviceFound g) eqn:Hf.
    + destruct (connected g) eqn:Hc; cbn [negb].
      * do 3 eexists. split; [reflexivity|]. split; [done|]. rewrite Hf.
        split; [done|]. split; [split; [by left|done]|].
        split; [intros _ s H; not_among H|].
        split; [intros b H; not_among H|done].
      * destruct (connectToServer_Some env g pServerAddress Hg)
          as (r & g' & out & Hrun & Hdf & Hco & Hmy & Hscan & Hconn & Hled).
        rewrite Hrun. rewrite Hc in Hled.
        destruct r as [b|]; do 3 eexists; (split; [reflexivity|]);
          (split; [done|]); rewrite Hdf, Hmy, Hf;
          (split; [done|]); (split; [split; [by left|done]|]).
        -- split; [|split].
           ++ intros _ s H. apply elem_of_app in H as [H|H]; [by apply Hscan in H|].
              not_among H.
           ++ intros b' H. apply elem_of_app in H as [H|H]; [by apply Hconn|].
              not_among H.
           ++ intros _. unfold led_after in *. rewrite foldl_app, Hled.
              cbn [foldl]. by rewrite Hco, Hc.
        -- split; [intros _ s H; by apply Hscan in H|].
           split; [done|]. intros _. by rewrite Hco, Hc.
    + do 3 eexists. unfold scanForDevices. split; [reflexivity|]. split; [done|].
      rewrite Hf. split; [done|]. split; [split; [by left|by intros [?|?]]|].
      split; [done|]. split; [intros b H; not_among H|done].
Qed.

(** Any sequence of entries, as far as it gets. *)
Lemma exec_inv (cs : list call) : ∀ g : globals,
  device_known g →
  ∃ e g' out,
    exec LED_BUILTIN cs g = (e, g', out) ∧ e ≠ NullPointer ∧ device_known g' ∧
    (deviceFound g' = true → deviceFound g = true ∨ OnResult pServerAddress ∈ cs) ∧
    (deviceFound g = true → deviceFound g' = true) ∧
    (e = Finished → OnResult pServerAddress ∈ cs → deviceFound g' = true) ∧
    (deviceFound g = true → ∀ s, ScanStart s ∉ out) ∧
    (∀ b, Connect b ∈ out → b = pServerAddress) ∧
    (LED_BUILTIN ≠ relayPin →
       led_after LED_BUILTIN (connected g) out = connected g').
Proof.
  induction cs as [|c cs IH]; intros g Hg.
  - exists Finished, g, []. split; [done|]. split; [done|]. split; [done|].
    split; [by left|]. split; [done|].
    split; [intros _ H; by apply elem_of_nil in H|].
    split; [intros _ s H; by apply elem_of_nil in H|].
    split; [intros b H; by apply elem_of_nil in H|done].
  - destruct (step_inv c g Hg)
      as (e1 & g1 & out1 & Hstep & He1 & Hg1 & Hf1 & Hs1 & Hc1 & Hl1).
    cbn [exec]. rewrite Hstep.
    assert (Hstop : e1 ≠ Finished →
              ∃ e g' out,
                (e1, g1, out1) = (e, g', out) ∧ e ≠ NullPointer ∧ device_known g' ∧
                (deviceFound g' = true
                 → deviceFound g = true ∨ OnResult pServerAddress ∈ c :: cs) ∧
                (deviceFound g = true → deviceFound g' = true) ∧
                (e = Finished → OnResult pServerAddress ∈ c :: cs
                 → deviceFound g' = true) ∧
                (deviceFound g = true → ∀ s, ScanStart s ∉ out) ∧
                (∀ b, Connect b ∈ out → b = pServerAddress) ∧
                (LED_BUILTIN ≠ relayPin →
                   led_after LED_BUILTIN (connected g) out = connected g')).
    { intros Hne. exists e1, g1, out1. split; [done|]. split; [done|].
      split; [done|]. split.
      - intros H. apply Hf1 in H as [?| ->]; [by left|right; apply list_elem_of_here].
      - split; [intros H; apply Hf1; by left|]. by split. }
    destruct e1 as [| | |f]; [|by apply Hstop..].
    destruct (IH g1 Hg1)
      as (e2 & g2 & out2 & Hrun & He2 & Hg2 & Hfrom & Hmono & Hfin & Hs2 & Hc2 & Hl2).
    rewrite Hrun. exists e2, g2, (out1 ++ out2).
    split; [done|]. split; [done|]. split; [done|].
    split; [|split; [|split; [|split; [|split]]]].
    + intros H. apply Hfrom in H as [H|H].
      * apply Hf1 in H as [?| ->]; [by left|right; apply list_elem_of_here].
      * right. by apply list_elem_of_further.
    + intros H. apply Hmono, Hf1. by left.
    + intros He H. apply elem_of_cons in H as [<-|H].
      * apply Hmono, Hf1. by right.
      * by apply Hfin.
    + intros Hf s H. apply elem_of_app in H as [H|H]; [by apply (Hs1 Hf s)|].
      apply (Hs2 ltac:(apply Hf1; by left) s H).
    + intros b H. apply elem_of_app in H as [H|H]; [by apply Hc1|by apply Hc2].
    + intros Hled. unfold led_after in *. rewrite foldl_app, Hl1 by done.
      by apply Hl2.
Qed.

(** Whatever the core and the stack call, and in whatever order, the sketch
    never dereferences a null [myDevice]: no run stops for that, and as far
    as a run gets [myDevice] is set, to the configured address, exactly
    when [deviceFound] is. *)
Theorem myDevice_never_null_when_used (cs : list call) :
  ∃ e g' out,
    exec LED_BUILTIN cs initial = (e, g', out) ∧
    e ≠ NullPointer ∧
    myDevice g' = if deviceFound g' then Some pServerAddress else None.
Proof.
  destruct (exec_inv cs initial eq_refl) as (e & g' & out & H & He & Hk & _).
  by exists e, g', out.
Qed.

(** [deviceFound] is set by an advertisement from the configured address
    and by nothing else, and a run that goes through such an advertisement
    and on to its end has it set. *)
Theorem found_iff_advertised (cs : list call) :
  ∃ e g' out,
    exec LED_BUILTIN cs initial = (e, g', out) ∧
    (deviceFound g' = true → OnResult pServerAddress ∈ cs) ∧
    (e = Finished → OnResult pServerAddress ∈ cs → deviceFound g' = true).
Proof.
  destruct (exec_inv cs initial eq_refl)
    as (e & g' & out & H & _ & _ & Hfrom & _ & Hfin & _).
  exists e, g', out. split; [done|]. split; [|done].
  intros Hf. by destruct (Hfrom Hf).
Qed.

(** As far as a run gets, every connection the sketch has asked for is to
    the configured address. *)
Theorem connects_to_server_only (cs : list call) :
  ∃ e g' out,
    exec LED_BUILTIN cs initial = (e, g', out) ∧
    ∀ a : BLEAddress, Connect a ∈ out → a = pServerAddress.
Proof.
  destruct (exec_inv cs initial eq_refl)
    as (e & g' & out & H & _ & _ & _ & _ & _ & _ & Hc & _).
  by exists e, g', out.
Qed.

(** On a board whose LED is not on the relay pin the LED shows [connected]:
    as far as a run gets, the level of the LED, low to begin with, is the
    value of the flag. *)
Theorem led_shows_connected (cs : list call) :
  LED_BUILTIN ≠ relayPin →
  ∃ e g' out,
    exec LED_BUILTIN cs initial = (e, g', out) ∧
    led_after LED_BUILTIN false out = connected g'.
Proof.
  intros Hled.
  destruct (exec_inv cs initial eq_refl)
    as (e & g' & out & H & _ & _ & _ & _ & _ & _ & _ & Hl).
  exists e, g', out. split; [done|]. by apply Hl.
Qed.

(** After a run that has gone through an advertisement from the configured
    address, whatever is called next, a disconnection included, the sketch
    does not start a scan again as far as it gets, and [deviceFound] stays
    set. *)
Theorem never_scans_again (cs1 cs2 : list call) (g1 : globals) (out1 : list io) :
  exec LED_BUILTIN cs1 initial = (Finished, g1, out1) →
  OnResult pServerAddress ∈ cs1 →
  ∃ e2 g2 out2,
    exec LED_BUILTIN cs2 g1 = (e2, g2, out2) ∧
    deviceFound g2 = true ∧ ∀ s : Z, ScanStart s ∉ out2.
Proof.
  intros H1 Hin.
  destruct (exec_inv cs1 initial eq_refl)
    as (e & g & out & H & _ & Hk1 & _ & _ & Hfin & _).
  rewrite H1 in H. injection H as <- <- <-.
  specialize (Hfin eq_refl Hin).
  destruct (exec_inv cs2 g1 Hk1)
    as (e2 & g2 & out2 & H2 & _ & _ & _ & Hmono & _ & Hs2 & _).
  exists e2, g2, out2. split; [done|]. split; [by apply Hmono|by apply Hs2].
Qed.

End sketch_properties.

Lemma found_iff_advertised_witness :
  ∃ e g' out,
    exec 2 [Setup; Loop (Ble true true true); OnResult pServerAddress] initial
    = (e, g', out) ∧ deviceFound g' = true.
Proof.
  destruct (found_iff_advertised 2
              [Setup; Loop (Ble true true true); OnResult pServerAddress])
    as (e & g' & out & Hexec & _ & Hfin).
  exists e, g', out. split; [exact Hexec|].
  apply Hfin.
  - vm_compute in Hexec. by injection Hexec as <- _ _.
  - do 2 apply list_elem_of_further. apply list_elem_of_here.
Defined.

Lemma led_shows_connected_witness :
  ∃ e g' out,
    exec 2 [Setup; OnResult pServerAddress; OnConnect;
            OnNotify [Byte.x12; Byte.x34]; OnDisconnect] initial
    = (e, g', out) ∧
    led_after 2 false out = connected g'.
Proof.
  apply (led_shows_connected 2
           [Setup; OnResult pServerAddress; OnConnect;
            OnNotify [Byte.x12; Byte.x34]; OnDisconnect]).
  unfold relayPin. lia.
Defined.

Lemma never_scans_again_witness :
  ∃ e2 g2 out2,
    exec 2 [OnConnect; OnDisconnect; Loop (Ble true true true)]
      (Globals true false (Some pServerAddress) None)
    = (e2, g2, out2) ∧
    deviceFound g2 = true ∧ ∀ s : Z, ScanStart s ∉ out2.
Proof.
  eapply (never_scans_again 2
            [Setup; Loop (Ble true true true); OnResult pServerAddress]
            [OnConnect; OnDisconnect; Loop (Ble true true true)]).
  - reflexivity.
  - do 2 apply list_elem_of_further. apply list_elem_of_here.
Defined.

(** [connectToServer] dereferences [myDevice]: called with the pointer null
    it has no defined behaviour.  With a device, it connects to it and then
    registers for notifications exactly when the service and the
    characteristic are found and the characteristic can notify; in every
    other case it returns [false], and in that one case it reaches the end
    of the function without returning a value: it never returns [true].
    It asks for the characteristic only when the service was found. *)
Theorem connectToServer_outcome (env : ble) (g : globals) :
  (myDevice g = None → connectToServer env g = None) ∧
  (∀ a : BLEAddress, myDevice g = Some a →
     ∃ r g' out,
       connectToServer env g = Some (r, g', out) ∧
       Connect a ∈ out ∧
       (RegisterForNotify ∈ out
        ↔ has_service env && has_characteristic env && can_notify env = true) ∧
       r = (if has_service env && has_characteristic env && can_notify env
            then FellOffEnd else Return false) ∧
       (GetCharacteristic charUUID ∈ out ↔ has_service env = true) ∧
       pRemoteCharacteristic g'
       = (if has_service env
          then if has_characteristic env then Some charUUID else None
          else pRemoteCharacteristic g)).
Proof.
  split.
  - intros Hn. unfold connectToServer. by rewrite Hn.
  - intros a Ha. unfold connectToServer. rewrite Ha. cbn [mbind option_bind].
    destruct env as [[] [] []];
      cbn [has_service has_characteristic can_notify negb andb];
      do 3 eexists; (split; [reflexivity|]); cbn [pRemoteCharacteristic app];
      (split; [do 11 apply list_elem_of_further; apply list_elem_of_here|]);
      (split; [split; [try done; intros H; not_among H
                      |try done; intros _;
                       do 29 apply list_elem_of_further; apply list_elem_of_here]|]);
      (split; [done|]);
      (split; [|done]);
      (split; [try done; intros H; not_among H
              |try done; intros _;
               do 24 apply list_elem_of_further; apply list_elem_of_here]).
Qed.

Lemma connectToServer_outcome_witness :
  ∃ r g' out,
    connectToServer (Ble true true false)
      (Globals true false (Some pServerAddress) None) = Some (r, g', out) ∧
    Connect pServerAddress ∈ out ∧
    (RegisterForNotify ∈ out ↔ true && true && false = true) ∧
    r = Return false ∧
    (GetCharacteristic charUUID ∈ out ↔ true = true) ∧
    pRemoteCharacteristic g' = Some charUUID.
Proof.
  exact (proj2 (connectToServer_outcome (Ble true true false)
                  (Globals true false (Some pServerAddress) None))
           pServerAddress eq_refl).
Defined.

(** Found and connected, [loop] does nothing but wait: any number of passes
    leaves the globals as they are and asks only for the one-second
    delays. *)
Theorem connected_loop_only_waits (LED_BUILTIN : Z) (envs : list ble) (g : globals) :
  deviceFound g = true → connected g = true →
  run LED_BUILTIN (map Loop envs) g
  = Some (g, replicate (length envs) (Wait 1000)).
Proof.
  intros Hf Hc. unfold run.
  assert (H : exec LED_BUILTIN (map Loop envs) g
              = (Finished, g, replicate (length envs) (Wait 1000))).
  { induction envs as [|env envs IH]; [done|].
    cbn [map exec step]. unfold loop. rewrite Hf, Hc. cbn [negb].
    by rewrite IH. }
  by rewrite H.
Qed.

Lemma connected_loop_only_waits_witness :
  run 2 (map Loop [Ble true true true; Ble false false false])
    (Globals true true (Some pServerAddress) (Some charUUID))
  = Some (Globals true true (Some pServerAddress) (Some charUUID),
          replicate 2 (Wait 1000)).
Proof.
  apply (connected_loop_only_waits 2 [Ble true true true; Ble false false false]
           (Globals true true (Some pServerAddress) (Some charUUID)));
    reflexivity.
Defined.

(** Advertisements from other devices change nothing: after any number of
    them the globals are what they were and the scan has not been
    stopped. *)
Theorem foreign_adverts_ignored (LED_BUILTIN : Z) (devices : list BLEAddress)
    (g : globals) :
  Forall (λ a, a ≠ pServerAddress) devices →
  ∃ out,
    run LED_BUILTIN (map OnResult devices) g = Some (g, out) ∧ ScanStop ∉ out.
Proof.
  intros Hall. unfold run.
  assert (H : ∃ out,
            exec LED_BUILTIN (map OnResult devices) g = (Finished, g, out)
            ∧ ScanStop ∉ out).
  { induction Hall as [|a devices Ha _ IH].
    - exists []. split; [done|]. apply not_elem_of_nil.
    - destruct IH as (out & Hrun & Hstop).
      cbn [map exec step]. unfold onResult.
      rewrite bool_decide_eq_false_2 by done. rewrite Hrun.
      eexists. split; [reflexivity|].
      intros H. apply elem_of_app in H as [H|H]; [not_among H|done]. }
  destruct H as (out & Hexec & Hstop). exists out. by rewrite Hexec.
Qed.

Lemma foreign_adverts_ignored_witness :
  ∃ out,
    run 2 (map OnResult [[1; 2; 3; 4; 5; 6]; [0xd9; 0x47; 0x6f; 0x3b; 0xf4; 0xe2]])
      initial = Some (initial, out) ∧ ScanStop ∉ out.
Proof.
  apply (foreign_adverts_ignored 2
           [[1; 2; 3; 4; 5; 6]; [0xd9; 0x47; 0x6f; 0x3b; 0xf4; 0xe2]] initial).
  repeat constructor; discriminate.
Defined.

(** C3: the solved signal should be given exactly when the 16 decoded
    piece-state bytes equal the solved pattern, for every decoded payload.
    The callback looks the face up before it compares: on the solved
    pattern sent in the clear with move byte 0x00 it prints the state, the
    pattern byte for byte, and indexes [faceNames] at -1; the comparison,
    which would give 0, is not reached and the relay is not pulsed.  That
    is so for the 160 move bytes, of 256, whose high nibble is not in
    1..6, and for none of the others. *)
Theorem solved_state_not_signalled :
  let data := solution ++ [0x00; 0; 0; 0] in
  length data = 20%nat ∧
  (notify data).1 = inl (OutOfBounds "faceNames" (-1)) ∧
  pData (notify data).2 = data ∧
  printed_bytes (trace (notify data).2) = solution ∧
  take 16 (pData (notify data).2) = solution ∧
  memcmp (pData (notify data).2) solution 16 = Some 0 ∧
  relay_pulsed (notify data).2 = false ∧
  length (List.filter
            (λ b16, negb (relay_pulsed (notify (solution ++ [b16; 0; 0; 0])).2))
            (seqZ 0 256)) = 160%nat ∧
  List.filter
    (λ b16, negb (relay_pulsed (notify (solution ++ [b16; 0; 0; 0])).2))
    (seqZ 0 256)
  = List.filter (λ b16, negb ((1 <=? b16 / 16) && (b16 / 16 <=? 6))) (seqZ 0 256).
Proof. cbv zeta. repeat apply conj; vm_compute; reflexivity. Qed.
